(** * Chapter-marker: break-point inference and chapter metadata

    A shallow embedding of the decision logic of [modded_cmthingy.py]:
    [clean_black_spaces], [find_optimal_breaks] and the metadata part of
    [write_chapters_to_video].

    Numbers.  The program computes on Python numbers: timestamps and the
    duration are floats parsed from the probe's text, the margins and
    the gap threshold are ints.  A finite float is the rational it
    denotes, so seconds are rationals [Q].  Comparisons are exact in
    Python, also between an int and a float: they are [Qlt] and [Qle].
    Values that the program only passes along (a timestamp copied from
    a scene cut into a break) stay syntactically the same rational, so
    statements about them use Leibniz equality.

    The development has two layers.  The first computes [+], [-], [/ 2]
    and [* 1000] exactly; it is what the program computes wherever those
    operations are exact, and it carries the properties that do not hang
    on the last bit of a computed value: the filter, the order of the
    result, what is copied, counted and shared.  The second, headed "on
    floats", rounds every float operation to binary64 as Python does and
    carries the properties that speak of computed values: which
    neighbours are far enough apart to make a gap, which scene cut is
    nearest to the middle of a gap, and the milliseconds written to the
    metadata file.

    Dictionaries with a fixed set of keys are records; the two string
    tags of a break are enumerations. *)

From Stdlib Require Import QArith Qabs Qround Lqa.
From Stdlib Require PrimFloat FloatOps SpecFloat.
Import PrimFloat.
From stdpp Require Import base option list sorting gmap strings pretty.

Local Open Scope Q_scope.

(** ** Comparisons as the program evaluates them *)

Definition Qltb (x y : Q) : bool := negb (Qle_bool y x).

(** ** Signal events *)

(** A black interval: the dict with keys [start], [end], [center] built by
    [detect_black_spaces]. *)
Record BlackInterval : Type := mkBlack {
  start : Q;
  end_ : Q;
  center : Q
}.

(** A silence interval: keys [start], [end], [center], [duration]. *)
Record SilenceInterval : Type := mkSilence {
  sil_start : Q;
  sil_end : Q;
  sil_center : Q;
  sil_duration : Q
}.

(** A scene cut: the dict with the single key [timestamp]. *)
Record SceneCut : Type := mkScene {
  scene_timestamp : Q
}.

Inductive BreakType : Type := black | scene.
Inductive Confidence : Type := high | medium.

(** A break: keys [timestamp], [type], [confidence]. *)
Record BreakPoint : Type := mkBreak {
  timestamp : Q;
  type : BreakType;
  confidence : Confidence
}.

(** ** [clean_black_spaces] *)

(** The condition of the comprehension:
    [b["start"] > start and b["end"] < duration - end]. *)
Definition keeps (duration start_margin end_margin : Q) (b : BlackInterval) : bool :=
  Qltb start_margin (start b) && Qltb (end_ b) (duration - end_margin).

Definition clean_black_spaces
    (blacks : list BlackInterval) (duration start_margin end_margin : Q)
    : list BlackInterval :=
  List.filter (keeps duration start_margin end_margin) blacks.

(** The call with both keyword arguments left at their defaults,
    [start=20] and [end=10], as [process_video] makes it. *)
Definition clean_black_spaces_default
    (blacks : list BlackInterval) (duration : Q) : list BlackInterval :=
  clean_black_spaces blacks duration 20 10.

(** ** [find_optimal_breaks] *)

(** The comprehension that seeds the break list: one high-confidence
    break per black interval, at its [center]. *)
Definition seed (blacks : list BlackInterval) : list BreakPoint :=
  map (fun b => mkBreak (center b) black high) blacks.

(** [list.sort(key=...)].  Python's sort is stable, calls the key
    function once per element and compares the keys with [<] only; the
    stable sort of a list is unique, so it is given here by insertion: an
    element moves right past the elements whose key is strictly smaller. *)
Fixpoint insert_by {A : Type} (key : A -> Q) (x : A) (l : list A) : list A :=
  match l with
  | [] => [x]
  | y :: l' =>
      if Qltb (key y) (key x)
      then y :: insert_by key x l'
      else x :: y :: l'
  end.

Definition sort_by {A : Type} (key : A -> Q) (l : list A) : list A :=
  foldr (insert_by key) [] l.

(** [breaks.sort(key=lambda x: x["timestamp"])] *)
Definition sort_by_timestamp (l : list BreakPoint) : list BreakPoint :=
  sort_by timestamp l.

(** A gap is the tuple [(gstart, gend)]. *)
Definition Gap : Type := (Q * Q)%type.

(** The body of [for i in range(len(filled) - 1)], the difference taken
    exactly; [Binary64.gap_at] rounds it. *)
Definition gap_at (max_gap : Q) (filled : list BreakPoint) (i : nat) : list Gap :=
  match filled !! i, filled !! S i with
  | Some p, Some n =>
      if Qltb max_gap (timestamp n - timestamp p)
      then [(timestamp p, timestamp n)]
      else []
  | _, _ => []
  end.

(** Lines 127-135: the leading gap, then the gaps between neighbours;
    the whole timeline when there is no break. *)
Definition coverage_gaps (duration max_gap : Q) (filled : list BreakPoint) : list Gap :=
  match filled with
  | [] => [(0, duration)]
  | f :: _ =>
      (if Qltb max_gap (timestamp f) then [(0, timestamp f)] else [])
      ++ flat_map (gap_at max_gap filled) (seq 0 (length filled - 1))
  end.

Definition gap_center (g : Gap) : Q := (fst g + snd g) / 2.

(** [gstart + 30 < s["timestamp"] < gend - 30], the two margins taken
    exactly; [Binary64.is_candidate] rounds them. *)
Definition is_candidate (g : Gap) (s : SceneCut) : bool :=
  Qltb (fst g + 30) (scene_timestamp s) && Qltb (scene_timestamp s) (snd g - 30).

Definition candidates (scenes : list SceneCut) (g : Gap) : list SceneCut :=
  List.filter (is_candidate g) scenes.

(** [abs(s["timestamp"] - center)], the difference taken exactly;
    [Binary64.distance] rounds it. *)
Definition distance (c : Q) (s : SceneCut) : Q := Qabs (scene_timestamp s - c).

(** [min(iterable, key=...)]: the running best is replaced only by an
    element whose key is strictly smaller, so the first minimum wins. *)
Fixpoint min_from {A : Type} (key : A -> Q) (best : A) (l : list A) : A :=
  match l with
  | [] => best
  | x :: l' => min_from key (if Qltb (key x) (key best) then x else best) l'
  end.

(** The body of [for gstart, gend in gaps]: the break appended for one
    gap, if any. *)
Definition fill_gap (scenes : list SceneCut) (g : Gap) : option BreakPoint :=
  match candidates scenes g with
  | [] => None
  | c :: cs =>
      let best := min_from (distance (gap_center g)) c cs in
      Some (mkBreak (scene_timestamp best) scene medium)
  end.

(** The whole loop, appending to [filled]. *)
Definition fill_gaps (scenes : list SceneCut) (gaps : list Gap)
    (filled : list BreakPoint) : list BreakPoint :=
  fold_left
    (fun acc g => match fill_gap scenes g with
                  | Some bp => acc ++ [bp]
                  | None => acc
                  end)
    gaps filled.

(** [max_gap = max_gap_minutes * 60] *)
Definition max_gap_of (max_gap_minutes : Z) : Q := inject_Z (max_gap_minutes * 60).

(** The sorted high-confidence breaks, [breaks] after line 122. *)
Definition high_breaks (blacks : list BlackInterval) : list BreakPoint :=
  sort_by_timestamp (seed blacks).

(** The gaps computed by a call, [gaps] after line 135. *)
Definition gaps_of (duration : Q) (blacks : list BlackInterval)
    (max_gap_minutes : Z) : list Gap :=
  coverage_gaps duration (max_gap_of max_gap_minutes) (high_breaks blacks).

Definition find_optimal_breaks
    (duration : Q) (blacks : list BlackInterval)
    (silences : list SilenceInterval) (scenes : list SceneCut)
    (max_gap_minutes : Z) : list BreakPoint :=
  let breaks := high_breaks blacks in
  let filled := breaks in
  let gaps := coverage_gaps duration (max_gap_of max_gap_minutes) filled in
  sort_by_timestamp (fill_gaps scenes gaps filled).


(** ** The metadata part of [write_chapters_to_video] *)

(** One [[CHAPTER]] section of the metadata file: [START], [END] (in
    units of the [TIMEBASE], 1/1000 s) and [title]. *)
Record Chapter : Type := mkChapter {
  ch_start : Z;
  ch_end : Z;
  ch_title : string
}.

(** [int(t * 1000)], the product taken exactly: [int] truncates towards
    zero; [Binary64.to_ms] rounds the product first. *)
Definition to_ms (t : Q) : Z :=
  let m := t * 1000 in Z.quot (Qnum m) (Zpos (Qden m)).

(** [f"Chapter {i}"] *)
Definition chapter_title (i : nat) : string := "Chapter " +:+ pretty i.

(** The loop [for i, bp in enumerate(break_points, 1)] with its variable
    [prev]; it returns the chapters written and the final [prev]. *)
Fixpoint chapter_loop (prev : Q) (i : nat) (break_points : list BreakPoint)
    : list Chapter * Q :=
  match break_points with
  | [] => ([], prev)
  | bp :: rest =>
      let '(cs, last_prev) := chapter_loop (timestamp bp) (S i) rest in
      (mkChapter (to_ms prev) (to_ms (timestamp bp)) (chapter_title i) :: cs,
       last_prev)
  end.

(** All chapters written: those of the loop, then the closing one. *)
Definition chapters (break_points : list BreakPoint) (duration : Q) : list Chapter :=
  let '(cs, prev) := chapter_loop 0 1 break_points in
  cs ++ [mkChapter (to_ms prev) (to_ms duration)
           (chapter_title (length break_points + 1))].

Definition nl : string := String (Ascii.ascii_of_nat 10) EmptyString.

(** The five [f.write] calls of one chapter. *)
Definition render_chapter (c : Chapter) : string :=
  nl +:+ "[CHAPTER]" +:+ nl
  +:+ "TIMEBASE=1/1000" +:+ nl
  +:+ "START=" +:+ pretty (ch_start c) +:+ nl
  +:+ "END=" +:+ pretty (ch_end c) +:+ nl
  +:+ "title=" +:+ ch_title c +:+ nl.

(** The text written to the [.ffmetadata] file. *)
Definition metadata_text (break_points : list BreakPoint) (duration : Q) : string :=
  ";FFMETADATA1" +:+ nl +:+ "encoder=cmthingy" +:+ nl
  +:+ foldr (fun c acc => render_chapter c +:+ acc) ""
        (chapters break_points duration).


(** ** The object store

    Lists and dicts are mutable objects that the program reaches through
    references.  To speak about what a call leaves untouched and what it
    creates, the two functions of the core are given a second time over an
    explicit store: a finite map from locations to objects, where a list
    holds the locations of its items.  A computation that raises (a
    reference that is not the expected kind of object) is [None]. *)

Definition loc : Type := positive.

Inductive obj : Type :=
  | OBlack (b : BlackInterval)
  | OSilence (s : SilenceInterval)
  | OScene (s : SceneCut)
  | OBreak (bp : BreakPoint)
  | OList (items : list loc).

Abbreviation heap := (gmap loc obj).

Definition M (A : Type) : Type := heap -> option (A * heap).

#[global] Instance M_ret : MRet M := fun A a h => Some (a, h).

#[global] Instance M_bind : MBind M := fun A B f m h =>
  match m h with
  | Some (a, h') => f a h'
  | None => None
  end.

(** Creating an object: it gets a location that is not in use. *)
Definition alloc (o : obj) : M loc := fun h =>
  let l := fresh (dom h) in Some (l, <[l:=o]> h).

Definition get_list (l : loc) : M (list loc) := fun h =>
  match h !! l with
  | Some (OList items) => Some (items, h)
  | _ => None
  end.

Definition get_black (l : loc) : M BlackInterval := fun h =>
  match h !! l with
  | Some (OBlack b) => Some (b, h)
  | _ => None
  end.

Definition get_scene (l : loc) : M SceneCut := fun h =>
  match h !! l with
  | Some (OScene s) => Some (s, h)
  | _ => None
  end.

Definition get_break (l : loc) : M BreakPoint := fun h =>
  match h !! l with
  | Some (OBreak bp) => Some (bp, h)
  | _ => None
  end.

(** Replacing the items of an existing list object. *)
Definition set_list (l : loc) (items : list loc) : M unit := fun h =>
  match h !! l with
  | Some (OList _) => Some (tt, <[l:=OList items]> h)
  | _ => None
  end.

(** [lst.append(r)] *)
Definition list_append (l r : loc) : M unit :=
  items ← get_list l; set_list l (items ++ [r]).

(** [lst.sort(key=lambda x: x["timestamp"])], in place: the keys are read
    first, then the references are reordered. *)
Definition sort_in_place (l : loc) : M unit :=
  items ← get_list l;
  keyed ← mapM (fun r => bp ← get_break r; mret (r, timestamp bp)) items;
  set_list l (map fst (sort_by snd keyed)).

(** Reading the records behind a list of references.  The comprehensions
    read each record as they go; reading changes nothing, so the records
    are read up front and paired with their references. *)
Definition with_black (r : loc) : M (loc * BlackInterval) :=
  b ← get_black r; mret (r, b).

Definition with_scene (r : loc) : M (loc * SceneCut) :=
  s ← get_scene r; mret (r, s).

(** [clean_black_spaces] over the store: the comprehension builds a new
    list object whose items are the references it kept. *)
Definition clean_black_spaces_h
    (blacks : loc) (duration start_margin end_margin : Q) : M loc :=
  items ← get_list blacks;
  read ← mapM with_black items;
  alloc (OList (map fst
    (List.filter (fun p => keeps duration start_margin end_margin (snd p)) read))).

(** Line 121: a new dict per black interval, collected in a new list. *)
Definition seed_h (blacks : loc) : M loc :=
  items ← get_list blacks;
  recs ← mapM (fun r => b ← get_black r;
                        alloc (OBreak (mkBreak (center b) black high))) items;
  alloc (OList recs).

(** Lines 127-135; the tuples of [gaps] are immutable values. *)
Definition coverage_gaps_h (filled : loc) (duration max_gap : Q) : M (list Gap) :=
  items ← get_list filled;
  bps ← mapM get_break items;
  mret (coverage_gaps duration max_gap bps).

(** Lines 138-149, one iteration of the loop over [gaps]. *)
Definition fill_gap_h (scenes filled : loc) (g : Gap) : M unit :=
  items ← get_list scenes;
  read ← mapM with_scene items;
  let cands := List.filter (fun p => is_candidate g (snd p)) read in
  _ ← alloc (OList (map fst cands));
  match cands with
  | [] => mret tt
  | c :: cs =>
      let best := min_from (fun p => distance (gap_center g) (snd p)) c cs in
      s ← get_scene (fst best);
      r ← alloc (OBreak (mkBreak (scene_timestamp s) scene medium));
      list_append filled r
  end.

(** [find_optimal_breaks] over the store.  [silences] is a reference
    that is never followed. *)
Definition find_optimal_breaks_h
    (duration : Q) (blacks silences scenes : loc) (max_gap_minutes : Z) : M loc :=
  breaks ← seed_h blacks;
  _ ← sort_in_place breaks;
  sorted ← get_list breaks;
  filled ← alloc (OList sorted);
  gaps ← coverage_gaps_h filled duration (max_gap_of max_gap_minutes);
  _ ← mapM (fill_gap_h scenes filled) gaps;
  _ ← sort_in_place filled;
  mret filled.

(** What a reference to a list of black intervals, of scene cuts or of
    breaks denotes in a store. *)
Definition blacks_at (h : heap) (l : loc) : option (list BlackInterval) :=
  fst <$> (items ← get_list l; mapM get_black items) h.

Definition scenes_at (h : heap) (l : loc) : option (list SceneCut) :=
  fst <$> (items ← get_list l; mapM get_scene items) h.

Definition breaks_at (h : heap) (l : loc) : option (list BreakPoint) :=
  fst <$> (items ← get_list l; mapM get_break items) h.

Definition items_at (h : heap) (l : loc) : list loc :=
  match h !! l with
  | Some (OList items) => items
  | _ => []
  end.

(** ** Specification-side vocabulary *)


Definition retained (duration start_margin end_margin : Q)
    (b : BlackInterval) : Prop :=
  start_margin < start b /\ end_ b < duration - end_margin.



(** [x], at index [i] of [l], has the least key, and every item before it
    has a strictly greater key: the first minimum. *)
Definition first_min {A : Type} (key : A -> Q) (l : list A) (i : nat) (x : A) : Prop :=
  l !! i = Some x
  /\ forall j y, l !! j = Some y ->
       key x <= key y /\ ((j < i)%nat -> key x < key y).

(** Where chapter number [k+1] starts: at 0 for the first chapter, at the
    timestamp of the previous break otherwise. *)
Definition chapter_start (break_points : list BreakPoint) (k : nat) : Q :=
  match k with
  | O => 0
  | S j => from_option timestamp 0 (break_points !! j)
  end.

(** [l] is a list object created since the store was [h0], its items are
    break records created since then too, with the values [vals]; and
    everything that was in [h0] is still there, unchanged. *)
Definition owns (h0 h : heap) (l : loc) (vals : list BreakPoint) : Prop :=
  h0 ⊆ h /\ h0 !! l = None
  /\ exists items, h !! l = Some (OList items)
       /\ Forall2 (fun r bp => h0 !! r = None /\ h !! r = Some (OBreak bp))
            items vals.

(** Non-decreasing keys, the order a sorted list is in. *)
Definition key_le {A : Type} (key : A -> Q) (a b : A) : Prop := key a <= key b.

(** A computation that only reads leaves the store as it was. *)
Definition reads {A B : Type} (f : A -> M B) : Prop :=
  forall x h y h', f x h = Some (y, h') -> h' = h.

(** ** Sample inputs *)

Definition sample_blacks : list BlackInterval :=
  [mkBlack 2000 2002 2001; mkBlack 100 102 101].

Definition sample_scenes : list SceneCut :=
  [mkScene 50; mkScene 1000; mkScene 1100; mkScene 3000].

Definition sample_store : heap :=
  list_to_map
    [(1%positive, OList [3; 4]%positive);
     (2%positive, OList [5; 6; 7; 8]%positive);
     (3%positive, OBlack (mkBlack 2000 2002 2001));
     (4%positive, OBlack (mkBlack 100 102 101));
     (5%positive, OScene (mkScene 50));
     (6%positive, OScene (mkScene 1000));
     (7%positive, OScene (mkScene 1100));
     (8%positive, OScene (mkScene 3000))].

(** ** [write_chapters_to_video] and [process_video], after the probes

    The external tool's runs are outside the model: what
    [write_chapters_to_video] hands to it is recorded instead (the paths,
    the metadata text and the command line), and [process_video] takes the
    results of the four probes as arguments.  [os.path.splitext] belongs
    to the platform's path module and is a parameter. *)

Definition FFMPEG : string := "ffmpeg".

Definition dq : string := String (Ascii.ascii_of_nat 34) EmptyString.

Record Remux : Type := mkRemux {
  rm_output : string;
  rm_metadata_file : string;
  rm_metadata : string;
  rm_command : string
}.

Definition write_chapters_to_video (splitext : string -> string * string)
    (video_file : string) (break_points : list BreakPoint) (duration : Q)
    (overwrite : bool) : Remux :=
  let '(base, ext) := splitext video_file in
  let output := if overwrite then video_file else base +:+ ".chapters" +:+ ext in
  let metadata := base +:+ ".ffmetadata" in
  mkRemux output metadata (metadata_text break_points duration)
    (FFMPEG +:+ " -i " +:+ dq +:+ video_file +:+ dq
       +:+ " -i " +:+ dq +:+ metadata +:+ dq
       +:+ " -map 0 -map_metadata 0 -map_chapters 1 -c copy -y "
       +:+ dq +:+ output +:+ dq).

(** Lines 210-211: the blacks are cleaned with the default margins, then
    the breaks are selected. *)
Definition video_breaks (duration : Q) (blacks : list BlackInterval)
    (silences : list SilenceInterval) (scenes : list SceneCut)
    (max_gap : Z) : list BreakPoint :=
  let blacks := clean_black_spaces_default blacks duration in
  find_optimal_breaks duration blacks silences scenes max_gap.


(** Lines 210-211 over the store: the name [blacks] is rebound to the
    cleaner's new list, which is what the selector receives. *)
Definition video_breaks_h (duration : Q) (blacks silences scenes : loc)
    (max_gap : Z) : M loc :=
  cleaned ← clean_black_spaces_h blacks duration 20 10;
  find_optimal_breaks_h duration cleaned silences scenes max_gap.


(** A path splitter that loses nothing: [root + ext == path]. *)
Definition splits (splitext : string -> string * string) : Prop :=
  forall p, fst (splitext p) +:+ snd (splitext p) = p.

(** The split of a path without extension, [(path, '')]. *)
Definition splitext_no_ext (p : string) : string * string := (p, "").

(** ** The table of [process_video] *)

(** [int(x)] of a float: truncation towards zero. *)
Definition py_int (t : Q) : Z := Z.quot (Qnum t) (Zpos (Qden t)).

(** [f"{s:02d}"]: zero-padded to two characters, the sign included. *)
Definition format_02d (s : Z) : string :=
  if (s <? 0)%Z then pretty s
  else if (s <? 10)%Z then "0" +:+ pretty s
  else pretty s.

(** The row added for the [i]-th break: [str(i)] and [f"{m}:{s:02d}"]
    with [m, s = divmod(int(b["timestamp"]), 60)]. *)
Definition table_row (i : nat) (b : BreakPoint) : string * string :=
  let t := py_int (timestamp b) in
  let m := (t / 60)%Z in
  let s := (t mod 60)%Z in
  (pretty i, pretty m +:+ ":" +:+ format_02d s).

(** The rows of [for i, b in enumerate(breaks, 1)]. *)
Definition table_rows (breaks : list BreakPoint) : list (string * string) :=
  imap (fun i b => table_row (S i) b) breaks.

(** ** Binary64 arithmetic

    A Python float is an IEEE 754 binary64 number, and [+], [-], [*] and
    [/] on floats return the exact result rounded to the nearest binary64
    number, ties to the even significand.  A finite float is the rational
    it denotes; [round_binary64] is that rounding on rationals: 53
    significant bits, the exponent of the last bit not below -1074.
    Infinities and NaN are not rationals: the model covers the finite
    range, where timestamps in seconds live. *)

(** [floor (log2 q)] for [q > 0]. *)
Definition ilog2 (q : Q) : Z :=
  let k := (Z.log2 (Qnum q) - Z.log2 (Zpos (Qden q)))%Z in
  if Qle_bool (2 ^ k) q then k else (k - 1)%Z.

(** The nearest integer, the even one of two at the same distance. *)
Definition round_half_even (q : Q) : Z :=
  let f := Qfloor q in
  match Qcompare (q - inject_Z f) (1 # 2) with
  | Lt => f
  | Gt => (f + 1)%Z
  | Eq => if Z.even f then f else (f + 1)%Z
  end.

Definition round_binary64 (q : Q) : Q :=
  if Qeq_bool q 0 then 0
  else
    let a := Qabs q in
    let e := Z.max (ilog2 a - 52) (-1074) in
    let m := round_half_even (a / 2 ^ e) in
    let r := Qred (inject_Z m * 2 ^ e) in
    if Qle_bool 0 q then r else - r.

Definition fadd (x y : Q) : Q := round_binary64 (x + y).
Definition fsub (x y : Q) : Q := round_binary64 (x - y).
Definition fmul (x y : Q) : Q := round_binary64 (x * y).
Definition fdiv (x y : Q) : Q := round_binary64 (x / y).

(** The rational a primitive float denotes (0 for an infinity or a NaN,
    which the comparisons below do not produce), to compare
    [round_binary64] with the machine's own binary64 operations. *)
Definition float_value (x : PrimFloat.float) : Q :=
  match FloatOps.Prim2SF x with
  | SpecFloat.S754_finite s m e =>
      let v := inject_Z (Zpos m) * 2 ^ e in if s then - v else v
  | _ => 0
  end.

(** Decimal literals of the examples, as the floats Python reads them. *)
Definition d25_1 : Q := 3532510957718733 # 140737488355328.
Definition d745_1 : Q := 6553968910847181 # 8796093022208.
Definition d30_2 : Q := 8500544296661811 # 281474976710656.
Definition d96_8 : Q := 6811694436397875 # 70368744177664.
Definition d30_002 : Q := 8444812251273101 # 281474976710656.

(** ** The selector and the writer on floats

    [find_optimal_breaks] and the metadata part of
    [write_chapters_to_video] with every float operation of the source
    rounded as Python rounds it.  Comparisons are exact on floats, also
    between a float and an int; copying and sorting involve no arithmetic,
    so [seed], [sort_by_timestamp], [high_breaks], [min_from] and
    [render_chapter] are the ones above. *)

Module Binary64.

(** [filled[i+1]["timestamp"] - filled[i]["timestamp"] > max_gap] *)
Definition gap_at (max_gap : Q) (filled : list BreakPoint) (i : nat) : list Gap :=
  match filled !! i, filled !! S i with
  | Some p, Some n =>
      if Qltb max_gap (fsub (timestamp n) (timestamp p))
      then [(timestamp p, timestamp n)]
      else []
  | _, _ => []
  end.

Definition coverage_gaps (duration max_gap : Q) (filled : list BreakPoint) : list Gap :=
  match filled with
  | [] => [(0, duration)]
  | f :: _ =>
      (if Qltb max_gap (timestamp f) then [(0, timestamp f)] else [])
      ++ flat_map (gap_at max_gap filled) (seq 0 (length filled - 1))
  end.

(** [center = (gstart + gend) / 2] *)
Definition gap_center (g : Gap) : Q := fdiv (fadd (fst g) (snd g)) 2.

(** [gstart + 30 < s["timestamp"] < gend - 30] *)
Definition is_candidate (g : Gap) (s : SceneCut) : bool :=
  Qltb (fadd (fst g) 30) (scene_timestamp s)
  && Qltb (scene_timestamp s) (fsub (snd g) 30).

Definition candidates (scenes : list SceneCut) (g : Gap) : list SceneCut :=
  List.filter (is_candidate g) scenes.

(** [abs(s["timestamp"] - center)] *)
Definition distance (c : Q) (s : SceneCut) : Q := Qabs (fsub (scene_timestamp s) c).

Definition fill_gap (scenes : list SceneCut) (g : Gap) : option BreakPoint :=
  match candidates scenes g with
  | [] => None
  | c :: cs =>
      let best := min_from (distance (gap_center g)) c cs in
      Some (mkBreak (scene_timestamp best) scene medium)
  end.

Definition fill_gaps (scenes : list SceneCut) (gaps : list Gap)
    (filled : list BreakPoint) : list BreakPoint :=
  fold_left
    (fun acc g => match fill_gap scenes g with
                  | Some bp => acc ++ [bp]
                  | None => acc
                  end)
    gaps filled.

Definition gaps_of (duration : Q) (blacks : list BlackInterval)
    (max_gap_minutes : Z) : list Gap :=
  coverage_gaps duration (max_gap_of max_gap_minutes) (high_breaks blacks).

Definition find_optimal_breaks
    (duration : Q) (blacks : list BlackInterval)
    (silences : list SilenceInterval) (scenes : list SceneCut)
    (max_gap_minutes : Z) : list BreakPoint :=
  let breaks := high_breaks blacks in
  let filled := breaks in
  let gaps := coverage_gaps duration (max_gap_of max_gap_minutes) filled in
  sort_by_timestamp (fill_gaps scenes gaps filled).

(** [int(t * 1000)]: the product is a float, [int] truncates it. *)
Definition to_ms (t : Q) : Z :=
  let m := fmul t 1000 in Z.quot (Qnum m) (Zpos (Qden m)).

Fixpoint chapter_loop (prev : Q) (i : nat) (break_points : list BreakPoint)
    : list Chapter * Q :=
  match break_points with
  | [] => ([], prev)
  | bp :: rest =>
      let '(cs, last_prev) := chapter_loop (timestamp bp) (S i) rest in
      (mkChapter (to_ms prev) (to_ms (timestamp bp)) (chapter_title i) :: cs,
       last_prev)
  end.

Definition chapters (break_points : list BreakPoint) (duration : Q) : list Chapter :=
  let '(cs, prev) := chapter_loop 0 1 break_points in
  cs ++ [mkChapter (to_ms prev) (to_ms duration)
           (chapter_title (length break_points + 1))].

(** The text written to the [.ffmetadata] file. *)
Definition metadata_text (break_points : list BreakPoint) (duration : Q) : string :=
  ";FFMETADATA1" +:+ nl +:+ "encoder=cmthingy" +:+ nl
  +:+ foldr (fun c acc => render_chapter c +:+ acc) ""
        (chapters break_points duration).

Definition write_chapters_to_video (splitext : string -> string * string)
    (video_file : string) (break_points : list BreakPoint) (duration : Q)
    (overwrite : bool) : Remux :=
  let '(base, ext) := splitext video_file in
  let output := if overwrite then video_file else base +:+ ".chapters" +:+ ext in
  let metadata := base +:+ ".ffmetadata" in
  mkRemux output metadata (metadata_text break_points duration)
    (FFMPEG +:+ " -i " +:+ dq +:+ video_file +:+ dq
       +:+ " -i " +:+ dq +:+ metadata +:+ dq
       +:+ " -map 0 -map_metadata 0 -map_chapters 1 -c copy -y "
       +:+ dq +:+ output +:+ dq).

End Binary64.

(** The gaps of a call as the design describes them, the difference of
    two neighbours being the float the program computes. *)
Definition computed_gaps_described (threshold duration : Q)
    (hs : list BreakPoint) (gaps : list Gap) : Prop :=
  match hs with
  | [] => gaps = [(0, duration)]
  | f :: _ =>
      forall g, g ∈ gaps <->
        (g = (0, timestamp f) /\ threshold < timestamp f)
        \/ (exists i p n, hs !! i = Some p /\ hs !! S i = Some n
              /\ g = (timestamp p, timestamp n)
              /\ threshold < fsub (timestamp n) (timestamp p))
  end.

(** A scene cut qualifies for a gap when the program's two comparisons
    succeed, the margins being the floats it computes. *)
Definition computed_qualifies (g : Gap) (s : SceneCut) : Prop :=
  fadd (fst g) 30 < scene_timestamp s /\ scene_timestamp s < fsub (snd g) 30.

(** The break chosen for a gap is nearest to its middle in exact
    arithmetic: no qualifying scene cut is strictly nearer. *)
Definition nearest_exactly (scenes : list SceneCut) (g : Gap) : Prop :=
  forall b s, Binary64.fill_gap scenes g = Some b ->
    s ∈ scenes -> computed_qualifies g s ->
    Qabs (timestamp b - (fst g + snd g) / 2)
      <= Qabs (scene_timestamp s - (fst g + snd g) / 2).

(** The spans of the chapters for a break list: from the previous break,
    or from [prev] for the first, to each break, then from the last break
    to the duration. *)
Fixpoint spans_from (prev : Q) (break_points : list BreakPoint) (duration : Q)
    : list (Q * Q) :=
  match break_points with
  | [] => [(prev, duration)]
  | bp :: rest => (prev, timestamp bp) :: spans_from (timestamp bp) rest duration
  end.

Definition chapter_spans (break_points : list BreakPoint) (duration : Q)
    : list (Q * Q) :=
  spans_from 0 break_points duration.

(** The section of the metadata file for chapter number [i] with the
    given span, bounds in whole milliseconds. *)
Definition chapter_section (i : nat) (span : Q * Q) : string :=
  nl +:+ "[CHAPTER]" +:+ nl
  +:+ "TIMEBASE=1/1000" +:+ nl
  +:+ "START=" +:+ pretty (Binary64.to_ms (fst span)) +:+ nl
  +:+ "END=" +:+ pretty (Binary64.to_ms (snd span)) +:+ nl
  +:+ "title=Chapter " +:+ pretty i +:+ nl.

(** The sections for a list of spans, numbered from [i]. *)
Fixpoint chapter_sections (i : nat) (spans : list (Q * Q)) : string :=
  match spans with
  | [] => ""
  | sp :: rest => chapter_section i sp +:+ chapter_sections (S i) rest
  end.

(** More literals of the examples. *)
Definition d25_2 : Q := 7093169413108531 # 281474976710656.
Definition d745_2 : Q := 3277424260074701 # 4398046511104.

(** Two black intervals, 25.0 to 25.2 and 745.0 to 745.2, with the
    centres [detect_black_spaces] computes for them, 25.1 and 745.1. *)
Definition twelve_minutes_apart : list BlackInterval :=
  [mkBlack 25 d25_2 d25_1; mkBlack 745 d745_2 d745_1].

(** A text file given by its lines, each ended by a newline. *)
Fixpoint lines (ls : list string) : string :=
  match ls with
  | [] => ""
  | l :: rest => l +:+ nl +:+ lines rest
  end.

(** A few floats with full significands, to try the four operations on
    every pair of them. *)
Definition grid : list PrimFloat.float :=
  [0x1.919999999999ap+4; 0x1.748cccccccccdp+9; 0x1.e333333333333p+4;
   0x1.8333333333333p+6; 0x1.e0083126e978dp+4; 0x1.4333333333333p+4;
   0x1.fc00000000000p+5; 0x1.f400000000000p+9; 0x1.e000000000000p+4;
   0x1.999999999999ap-4; 0x1.5555555555555p-2; 0x1.c200000000000p+11;
   0x1.0000000000001p+0; 0x1.fffffffffffffp-1; 0x1.921fb54442d18p+1]%float.

Definition agrees (fop : PrimFloat.float -> PrimFloat.float -> PrimFloat.float)
    (qop : Q -> Q -> Q) (x y : PrimFloat.float) : bool :=
  Qeq_bool (float_value (fop x y)) (qop (float_value x) (float_value y)).

Definition agrees_on_grid : bool :=
  forallb (fun x =>
    forallb (fun y =>
      agrees PrimFloat.add fadd x y && agrees PrimFloat.sub fsub x y
      && agrees PrimFloat.mul fmul x y && agrees PrimFloat.div fdiv x y
      && agrees PrimFloat.sub fsub (PrimFloat.opp x) y)
    grid) grid.

(** * Properties *)

(** ** Order on seconds *)

Lemma Qltb_lt (x y : Q) : Qltb x y = true <-> x < y.
Proof.
  unfold Qltb. rewrite negb_true_iff. split.
  - intros H. apply Qnot_le_lt. intros Hle.
    apply Qle_bool_iff in Hle. congruence.
  - intros H. destruct (Qle_bool y x) eqn:E; [|reflexivity].
    apply Qle_bool_iff in E. exfalso. exact (Qlt_not_le _ _ H E).
Qed.

Lemma Qltb_ge (x y : Q) : Qltb x y = false <-> y <= x.
Proof.
  unfold Qltb. rewrite negb_false_iff. apply Qle_bool_iff.
Qed.

#[global] Instance Qlt_decision (x y : Q) : Decision (x < y).
Proof.
  destruct (Qltb x y) eqn:E.
  - left. by apply Qltb_lt.
  - right. apply Qle_not_lt. by apply Qltb_ge.
Defined.

#[global] Instance Qle_decision (x y : Q) : Decision (x <= y).
Proof.
  destruct (Qltb y x) eqn:E.
  - right. apply Qlt_not_le. by apply Qltb_lt.
  - left. by apply Qltb_ge.
Defined.

(** ** The stable sort *)

Section sorting.
Context {A : Type} (key : A -> Q).

Lemma insert_by_perm (x : A) (l : list A) : insert_by key x l ≡ₚ x :: l.
Proof.
  induction l as [|y l IH]; simpl; [done|].
  destruct (Qltb (key y) (key x)); [|done].
  rewrite IH. apply perm_swap.
Qed.

Lemma sort_by_perm (l : list A) : sort_by key l ≡ₚ l.
Proof.
  induction l as [|x l IH]; simpl; [done|].
  unfold sort_by in *. simpl. rewrite insert_by_perm. by rewrite IH.
Qed.

Lemma insert_by_sorted (x : A) (l : list A) :
  StronglySorted (key_le key) l -> StronglySorted (key_le key) (insert_by key x l).
Proof.
  induction 1 as [|y l Hs IH Hall]; simpl.
  - repeat constructor.
  - destruct (Qltb (key y) (key x)) eqn:E.
    + constructor; [done|].
      rewrite insert_by_perm. constructor; [|done].
      apply Qltb_lt in E. unfold key_le. by apply Qlt_le_weak.
    + apply Qltb_ge in E.
      constructor; [by constructor|].
      constructor; [done|].
      eapply Forall_impl; [exact Hall|].
      intros z Hz. unfold key_le in *. by eapply Qle_trans.
Qed.

Lemma sort_by_sorted (l : list A) : StronglySorted (key_le key) (sort_by key l).
Proof.
  induction l as [|x l IH]; [constructor|].
  unfold sort_by in *. simpl. by apply insert_by_sorted.
Qed.

Lemma sort_by_elem (x : A) (l : list A) : x ∈ sort_by key l <-> x ∈ l.
Proof. by rewrite sort_by_perm. Qed.

Lemma sort_by_nil_inv (l : list A) : sort_by key l = [] -> l = [].
Proof.
  intros H. apply Permutation_nil_r. rewrite <- H. symmetry. apply sort_by_perm.
Qed.
End sorting.

(** Sorting decorated items and forgetting the decoration is sorting. *)
Lemma insert_by_map {A B : Type} (f : A -> B) (kA : A -> Q) (kB : B -> Q)
    (x : A) (l : list A) :
  (forall a, kB (f a) = kA a) ->
  map f (insert_by kA x l) = insert_by kB (f x) (map f l).
Proof.
  intros Hk. induction l as [|y l IH]; simpl; [done|].
  rewrite !Hk. destruct (Qltb (kA y) (kA x)); simpl; [by rewrite IH|done].
Qed.

Lemma sort_by_map {A B : Type} (f : A -> B) (kA : A -> Q) (kB : B -> Q)
    (l : list A) :
  (forall a, kB (f a) = kA a) ->
  map f (sort_by kA l) = sort_by kB (map f l).
Proof.
  intros Hk. induction l as [|x l IH]; simpl; [done|].
  unfold sort_by in *. simpl. rewrite <- IH. by apply insert_by_map.
Qed.

(** ** The Candidate Cleaner *)

#[global] Instance retained_decision d sm em b : Decision (retained d sm em b).
Proof. unfold retained. apply _. Defined.





(** ** Coverage gaps *)




(** ** Choosing the first minimum *)

Lemma min_from_first_min {A : Type} (key : A -> Q) (l pre : list A) (best : A) (i : nat) :
  first_min key pre i best ->
  exists i', first_min key (pre ++ l) i' (min_from key best l).
Proof.
  revert pre best i. induction l as [|x l IH]; intros pre best i [Hi Hmin].
  - exists i. rewrite app_nil_r. by split.
  - simpl. replace (pre ++ x :: l) with ((pre ++ [x]) ++ l)
      by (by rewrite <- app_assoc).
    pose proof (lookup_lt_Some _ _ _ Hi) as Hlen.
    destruct (Qltb (key x) (key best)) eqn:E.
    + apply Qltb_lt in E. apply (IH _ _ (length pre)). split.
      * by rewrite lookup_app_r, Nat.sub_diag by lia.
      * intros j y Hj. destruct (decide (j < length pre)%nat) as [Hlt|Hge].
        -- rewrite lookup_app_l in Hj by done.
           destruct (Hmin j y Hj) as [Hle _].
           assert (key x < key y) by (by eapply Qlt_le_trans).
           split; [by apply Qlt_le_weak|done].
        -- rewrite lookup_app_r in Hj by lia.
           apply list_lookup_singleton_Some in Hj as [_ <-].
           split; [apply Qle_refl|lia].
    + apply Qltb_ge in E. apply (IH _ _ i). split.
      * by rewrite lookup_app_l.
      * intros j y Hj. destruct (decide (j < length pre)%nat) as [Hlt|Hge].
        -- rewrite lookup_app_l in Hj by done. by apply Hmin.
        -- rewrite lookup_app_r in Hj by lia.
           apply list_lookup_singleton_Some in Hj as [_ <-].
           split; [done|lia].
Qed.

Lemma min_from_cons_first_min {A : Type} (key : A -> Q) (c : A) (cs : list A) :
  exists i, first_min key (c :: cs) i (min_from key c cs).
Proof.
  apply (min_from_first_min key cs [c] c 0%nat). split; [done|].
  intros [|j] y Hj; [|done]. injection Hj as <-. split; [apply Qle_refl|lia].
Qed.

(** A comprehension with a condition keeps the order of its source. *)
Lemma filter_lookup_source {A : Type} (f : A -> bool) (l : list A) (i : nat) (x : A) :
  List.filter f l !! i = Some x ->
  exists i', l !! i' = Some x /\ f x = true
    /\ forall j' y, (j' < i')%nat -> l !! j' = Some y -> f y = true ->
         exists j, (j < i)%nat /\ List.filter f l !! j = Some y.
Proof.
  revert i. induction l as [|a l IH]; intros i Hi; [done|].
  simpl in Hi. destruct (f a) eqn:Ea.
  - destruct i as [|k].
    + injection Hi as <-. exists 0%nat. repeat split; try done. lia.
    + destruct (IH k Hi) as (i' & Hx & Hfx & Hord).
      exists (S i'). repeat split; try done.
      intros [|j'] y Hlt Hy Hfy.
      * injection Hy as <-. exists 0%nat. simpl. rewrite Ea. split; [lia|done].
      * destruct (Hord j' y) as (j & Hj & Hjy); [lia|done|done|].
        exists (S j). simpl. rewrite Ea. split; [lia|done].
  - destruct (IH i Hi) as (i' & Hx & Hfx & Hord).
    exists (S i'). repeat split; try done.
    intros [|j'] y Hlt Hy Hfy.
    + injection Hy as <-. congruence.
    + destruct (Hord j' y) as (j & Hj & Hjy); [lia|done|done|].
      exists j. simpl. rewrite Ea. done.
Qed.

Lemma filter_lookup_target {A : Type} (f : A -> bool) (l : list A) (j' : nat) (y : A) :
  l !! j' = Some y -> f y = true -> exists j, List.filter f l !! j = Some y.
Proof.
  intros Hy Hfy. apply list_elem_of_lookup.
  apply list_elem_of_In, filter_In. split; [|done].
  apply list_elem_of_In, list_elem_of_lookup. by exists j'.
Qed.

(** ** Filling one gap *)





(** ** The loop over the gaps *)

Lemma fill_gaps_app scenes gaps filled :
  fill_gaps scenes gaps filled = filled ++ omap (fill_gap scenes) gaps.
Proof.
  unfold fill_gaps. revert filled.
  induction gaps as [|g gaps IH]; intros filled; simpl.
  - by rewrite app_nil_r.
  - rewrite IH. destruct (fill_gap scenes g); [|done].
    by rewrite <- app_assoc.
Qed.

Lemma find_optimal_breaks_perm duration blacks silences scenes m :
  find_optimal_breaks duration blacks silences scenes m
  ≡ₚ high_breaks blacks ++ omap (fill_gap scenes) (gaps_of duration blacks m).
Proof.
  unfold find_optimal_breaks, sort_by_timestamp.
  by rewrite sort_by_perm, fill_gaps_app.
Qed.

Lemma elem_of_high_breaks blacks b :
  b ∈ high_breaks blacks <->
  exists bi, bi ∈ blacks /\ b = mkBreak (center bi) black high.
Proof.
  unfold high_breaks, sort_by_timestamp, seed.
  rewrite sort_by_elem, list_elem_of_fmap.
  split; intros (bi & H1 & H2); exists bi; done.
Qed.

Lemma elem_of_find_optimal_breaks duration blacks silences scenes m b :
  b ∈ find_optimal_breaks duration blacks silences scenes m <->
  (exists bi, bi ∈ blacks /\ b = mkBreak (center bi) black high)
  \/ (exists g, g ∈ gaps_of duration blacks m /\ fill_gap scenes g = Some b).
Proof.
  rewrite find_optimal_breaks_perm, elem_of_app, elem_of_high_breaks.
  by rewrite list_elem_of_omap.
Qed.

(** ** The Break Selector *)





(** C4.  The returned list is sorted non-decreasing by timestamp; it is a
    rearrangement of the high-confidence breaks followed by the breaks
    filled into the gaps, so equal timestamps stay side by side and
    nothing is dropped. *)
Theorem find_optimal_breaks_sorted (duration : Q) (blacks : list BlackInterval)
    (silences : list SilenceInterval) (scenes : list SceneCut) (m : Z) :
  StronglySorted (fun a b => timestamp a <= timestamp b)
    (find_optimal_breaks duration blacks silences scenes m)
  /\ find_optimal_breaks duration blacks silences scenes m
     ≡ₚ seed blacks ++ omap (fill_gap scenes) (gaps_of duration blacks m)
  /\ length (find_optimal_breaks duration blacks silences scenes m)
     = (length blacks
        + length (omap (fill_gap scenes) (gaps_of duration blacks m)))%nat.
Proof.
  assert (find_optimal_breaks duration blacks silences scenes m
     ≡ₚ seed blacks ++ omap (fill_gap scenes) (gaps_of duration blacks m)) as Hp.
  { rewrite find_optimal_breaks_perm. unfold high_breaks, sort_by_timestamp.
    by rewrite sort_by_perm. }
  split; [apply (sort_by_sorted timestamp)|].
  split; [done|].
  rewrite Hp, length_app. unfold seed. by rewrite length_map.
Qed.



(** C9.  The result does not depend on the silence intervals. *)
Theorem silences_ignored (duration : Q) (blacks : list BlackInterval)
    (s1 s2 : list SilenceInterval) (scenes : list SceneCut) (m : Z) :
  find_optimal_breaks duration blacks s1 scenes m
  = find_optimal_breaks duration blacks s2 scenes m.
Proof. reflexivity. Qed.

(** ** The Chapter Writer *)

Lemma chapter_loop_length prev i bps :
  length (fst (chapter_loop prev i bps)) = length bps.
Proof.
  revert prev i. induction bps as [|bp bps IH]; intros prev i; simpl; [done|].
  specialize (IH (timestamp bp) (S i)).
  destruct (chapter_loop (timestamp bp) (S i) bps). simpl in *. by rewrite IH.
Qed.

Lemma chapter_loop_lookup prev i bps k bp :
  bps !! k = Some bp ->
  fst (chapter_loop prev i bps) !! k
  = Some (mkChapter
            (to_ms (match k with
                    | O => prev
                    | S j => from_option timestamp 0 (bps !! j)
                    end))
            (to_ms (timestamp bp)) (chapter_title (i + k))).
Proof.
  revert prev i k. induction bps as [|b bps IH]; intros prev i k Hk; [done|].
  simpl. specialize (IH (timestamp b) (S i)).
  destruct (chapter_loop (timestamp b) (S i) bps) as [cs lp]. simpl in *.
  destruct k as [|k]; simpl in *.
  - injection Hk as <-. by rewrite Nat.add_0_r.
  - rewrite (IH k Hk). rewrite Nat.add_succ_r.
    destruct k as [|k]; [done|]. done.
Qed.

Lemma chapter_loop_prev prev i bps :
  snd (chapter_loop prev i bps)
  = match length bps with
    | O => prev
    | S j => from_option timestamp 0 (bps !! j)
    end.
Proof.
  revert prev i. induction bps as [|b bps IH]; intros prev i; simpl; [done|].
  specialize (IH (timestamp b) (S i)).
  destruct (chapter_loop (timestamp b) (S i) bps) as [cs lp]. simpl in *.
  rewrite IH. by destruct bps.
Qed.

(** ** The store: reading *)

Lemma bind_Some {A B : Type} (m : M A) (f : A -> M B) (h h' : heap) (a : A) :
  m h = Some (a, h') -> (m ≫= f) h = f a h'.
Proof. unfold mbind, M_bind. by intros ->. Qed.

Lemma bind_Some_inv {A B : Type} (m : M A) (f : A -> M B) (h h'' : heap) (b : B) :
  (m ≫= f) h = Some (b, h'') ->
  exists a h', m h = Some (a, h') /\ f a h' = Some (b, h'').
Proof.
  unfold mbind, M_bind. destruct (m h) as [[a h']|]; [|done]. eauto.
Qed.

Lemma mapM_Some {A B : Type} (f : A -> M B) (h : heap) (l : list A) (ys : list B) :
  Forall2 (fun x y => f x h = Some (y, h)) l ys -> mapM f l h = Some (ys, h).
Proof.
  induction 1 as [|x y l ys Hxy _ IH]; [done|].
  simpl. rewrite (bind_Some _ _ _ _ _ Hxy), (bind_Some _ _ _ _ _ IH). done.
Qed.

Lemma mapM_reads_inv {A B : Type} (f : A -> M B) (h h' : heap)
    (l : list A) (ys : list B) :
  reads f -> mapM f l h = Some (ys, h') ->
  h' = h /\ Forall2 (fun x y => f x h = Some (y, h)) l ys.
Proof.
  intros Hr. revert ys. induction l as [|x l IH]; intros ys Hm.
  - injection Hm as <- <-. by split.
  - simpl in Hm.
    apply bind_Some_inv in Hm as (y & h1 & Hy & Hm).
    apply bind_Some_inv in Hm as (k & h2 & Hk & Hm).
    injection Hm as <- <-.
    pose proof (Hr _ _ _ _ Hy) as ->.
    destruct (IH _ Hk) as [-> HF]. split; [done|]. by constructor.
Qed.

Ltac solve_getter :=
  split;
  first [ by intros [= <- <-] | done | by intros [-> [= <-]] | by intros [_ [=]] ].

Lemma get_list_Some l h items h' :
  get_list l h = Some (items, h') <-> h' = h /\ h !! l = Some (OList items).
Proof.
  unfold get_list. destruct (h !! l) as [[]|]; solve_getter.
Qed.

Lemma get_black_Some l h b h' :
  get_black l h = Some (b, h') <-> h' = h /\ h !! l = Some (OBlack b).
Proof.
  unfold get_black. destruct (h !! l) as [[]|]; solve_getter.
Qed.

Lemma get_scene_Some l h s h' :
  get_scene l h = Some (s, h') <-> h' = h /\ h !! l = Some (OScene s).
Proof.
  unfold get_scene. destruct (h !! l) as [[]|]; solve_getter.
Qed.

Lemma get_break_Some l h bp h' :
  get_break l h = Some (bp, h') <-> h' = h /\ h !! l = Some (OBreak bp).
Proof.
  unfold get_break. destruct (h !! l) as [[]|]; solve_getter.
Qed.

Lemma blacks_at_Some h l vals :
  blacks_at h l = Some vals <->
  exists items, h !! l = Some (OList items)
    /\ Forall2 (fun r b => h !! r = Some (OBlack b)) items vals.
Proof.
  unfold blacks_at. split.
  - intros Hm. apply fmap_Some in Hm as ([vs h'] & Hm & ->).
    apply bind_Some_inv in Hm as (items & h1 & [-> Hl]%get_list_Some & Hm).
    apply mapM_reads_inv in Hm as [_ HF];
      [|by intros ???? [? _]%get_black_Some].
    exists items. split; [done|].
    eapply Forall2_impl; [exact HF|]. by intros r b [_ ?]%get_black_Some.
  - intros (items & Hl & HF).
    rewrite (bind_Some _ _ h h items) by (by apply get_list_Some).
    rewrite (mapM_Some _ h items vals); [done|].
    eapply Forall2_impl; [exact HF|]. intros r b ?. by apply get_black_Some.
Qed.

Lemma scenes_at_Some h l vals :
  scenes_at h l = Some vals <->
  exists items, h !! l = Some (OList items)
    /\ Forall2 (fun r s => h !! r = Some (OScene s)) items vals.
Proof.
  unfold scenes_at. split.
  - intros Hm. apply fmap_Some in Hm as ([vs h'] & Hm & ->).
    apply bind_Some_inv in Hm as (items & h1 & [-> Hl]%get_list_Some & Hm).
    apply mapM_reads_inv in Hm as [_ HF];
      [|by intros ???? [? _]%get_scene_Some].
    exists items. split; [done|].
    eapply Forall2_impl; [exact HF|]. by intros r b [_ ?]%get_scene_Some.
  - intros (items & Hl & HF).
    rewrite (bind_Some _ _ h h items) by (by apply get_list_Some).
    rewrite (mapM_Some _ h items vals); [done|].
    eapply Forall2_impl; [exact HF|]. intros r b ?. by apply get_scene_Some.
Qed.

Lemma breaks_at_Some h l vals :
  breaks_at h l = Some vals <->
  exists items, h !! l = Some (OList items)
    /\ Forall2 (fun r bp => h !! r = Some (OBreak bp)) items vals.
Proof.
  unfold breaks_at. split.
  - intros Hm. apply fmap_Some in Hm as ([vs h'] & Hm & ->).
    apply bind_Some_inv in Hm as (items & h1 & [-> Hl]%get_list_Some & Hm).
    apply mapM_reads_inv in Hm as [_ HF];
      [|by intros ???? [? _]%get_break_Some].
    exists items. split; [done|].
    eapply Forall2_impl; [exact HF|]. by intros r b [_ ?]%get_break_Some.
  - intros (items & Hl & HF).
    rewrite (bind_Some _ _ h h items) by (by apply get_list_Some).
    rewrite (mapM_Some _ h items vals); [done|].
    eapply Forall2_impl; [exact HF|]. intros r b ?. by apply get_break_Some.
Qed.

(** ** Lists of references and their values *)

Lemma Forall2_pairs {A B : Type} (P : A -> B -> Prop) (l : list A) (k : list B) :
  Forall2 P l k ->
  exists T : list (A * B),
    map fst T = l /\ map snd T = k /\ Forall (fun p => P (fst p) (snd p)) T.
Proof.
  induction 1 as [|x y l k Hxy _ (T & <- & <- & HT)].
  - by exists [].
  - exists ((x, y) :: T). repeat split. by constructor.
Qed.

Lemma pairs_Forall2 {A B : Type} (P : A -> B -> Prop) (T : list (A * B)) :
  Forall (fun p => P (fst p) (snd p)) T -> Forall2 P (map fst T) (map snd T).
Proof. induction 1; simpl; by constructor. Qed.

Lemma mapM_pairs {A B C : Type} (f : A -> M C) (mk : A * B -> C)
    (h : heap) (T : list (A * B)) :
  Forall (fun p => f (fst p) h = Some (mk p, h)) T ->
  mapM f (map fst T) h = Some (map mk T, h).
Proof.
  intros HT. apply mapM_Some.
  induction HT; simpl; by constructor.
Qed.

Lemma filter_map_snd {A B : Type} (f : B -> bool) (T : list (A * B)) :
  List.filter f (map snd T) = map snd (List.filter (fun p => f (snd p)) T).
Proof.
  induction T as [|p T IH]; simpl; [done|].
  destruct (f (snd p)); simpl; by rewrite IH.
Qed.

Lemma min_from_map {A B : Type} (f : A -> B) (key : B -> Q) (x : A) (l : list A) :
  f (min_from (fun a => key (f a)) x l) = min_from key (f x) (map f l).
Proof.
  revert x. induction l as [|y l IH]; intros x; simpl; [done|].
  rewrite IH. by destruct (Qltb (key (f y)) (key (f x))).
Qed.

Lemma min_from_elem {A : Type} (key : A -> Q) (x : A) (l : list A) :
  min_from key x l ∈ x :: l.
Proof.
  destruct (min_from_cons_first_min key x l) as (i & Hi & _).
  apply list_elem_of_lookup. by exists i.
Qed.

(** ** The store: creating and updating *)

Lemma alloc_Some o h :
  exists l, h !! l = None /\ alloc o h = Some (l, <[l:=o]> h).
Proof.
  exists (fresh (dom h)). split; [|done].
  apply not_elem_of_dom, is_fresh.
Qed.

Lemma set_list_Some l items old h :
  h !! l = Some (OList old) ->
  set_list l items h = Some (tt, <[l:=OList items]> h).
Proof. unfold set_list. by intros ->. Qed.

Section frame.
Context (h0 : heap).

Lemma owns_alloc h l vals l' o :
  owns h0 h l vals -> h !! l' = None -> owns h0 (<[l':=o]> h) l vals.
Proof.
  intros (Hsub & Hl0 & items & Hl & HF) Hnew.
  split; [|split; [done|]].
  - apply insert_subseteq_r; [|done]. by eapply lookup_weaken_None.
  - exists items. split.
    + rewrite lookup_insert_ne; [done|]. intros ->. congruence.
    + eapply Forall2_impl; [exact HF|]. intros r bp [Hr0 Hr].
      split; [done|]. rewrite lookup_insert_ne; [done|].
      intros ->. congruence.
Qed.

Lemma owns_set h l vals items' vals' :
  owns h0 h l vals ->
  Forall2 (fun r bp => h0 !! r = None /\ h !! r = Some (OBreak bp))
    items' vals' ->
  owns h0 (<[l:=OList items']> h) l vals'.
Proof.
  intros (Hsub & Hl0 & items & Hl & _) HF'.
  split; [by apply insert_subseteq_r|]. split; [done|].
  exists items'. split; [by rewrite lookup_insert_eq|].
  eapply Forall2_impl; [exact HF'|]. intros r bp [Hr0 Hr].
  split; [done|]. rewrite lookup_insert_ne; [done|].
  intros ->. congruence.
Qed.

Lemma owns_copy h l vals items l' :
  owns h0 h l vals -> h !! l = Some (OList items) -> h !! l' = None ->
  owns h0 (<[l':=OList items]> h) l' vals.
Proof.
  intros (Hsub & Hl0 & items' & Hl & HF) Hl' Hnew.
  assert (items' = items) as -> by congruence.
  split; [|split].
  - apply insert_subseteq_r; [|done]. by eapply lookup_weaken_None.
  - by eapply lookup_weaken_None.
  - exists items. split; [by rewrite lookup_insert_eq|].
    eapply Forall2_impl; [exact HF|]. intros r bp [Hr0 Hr].
    split; [done|]. rewrite lookup_insert_ne; [done|].
    intros ->. congruence.
Qed.

Lemma owns_breaks_at h l vals : owns h0 h l vals -> breaks_at h l = Some vals.
Proof.
  intros (_ & _ & items & Hl & HF). apply breaks_at_Some.
  exists items. split; [done|].
  eapply Forall2_impl; [exact HF|]. by intros r bp [_ ?].
Qed.

Lemma owns_items_fresh h l vals r :
  owns h0 h l vals -> r ∈ items_at h l -> h0 !! r = None.
Proof.
  intros (_ & _ & items & Hl & HF) Hr. unfold items_at in Hr.
  rewrite Hl in Hr. apply (Forall2_Forall_l _ (fun r => h0 !! r = None)) in HF.
  - rewrite Forall_forall in HF. by apply HF.
  - apply Forall_true. by intros bp r' [? _].
Qed.

Lemma sort_in_place_owns h l vals :
  owns h0 h l vals ->
  exists h', sort_in_place l h = Some (tt, h')
    /\ owns h0 h' l (sort_by timestamp vals).
Proof.
  intros Ho. pose proof Ho as (_ & _ & items & Hl & HF).
  apply Forall2_pairs in HF as (T & <- & <- & HT).
  unfold sort_in_place.
  rewrite (bind_Some _ _ h h (map fst T)) by (by apply get_list_Some).
  rewrite (bind_Some _ _ h h (map (fun p => (fst p, timestamp (snd p))) T)).
  2:{ apply mapM_pairs. eapply Forall_impl; [exact HT|].
      intros [r bp] [_ Hr]. simpl in *.
      rewrite (bind_Some _ _ h h bp); [done|]. by apply get_break_Some. }
  rewrite (set_list_Some _ _ _ _ Hl). eexists. split; [done|].
  eapply owns_set; [exact Ho|].
  set (k := fun p : loc * BreakPoint => timestamp (snd p)).
  rewrite <- (sort_by_map (fun p => (fst p, timestamp (snd p))) k snd T)
    by done.
  rewrite <- (sort_by_map snd k timestamp T) by done.
  rewrite map_map. simpl. apply pairs_Forall2.
  rewrite Forall_forall in HT. apply Forall_forall.
  intros p Hp. apply HT. by apply (sort_by_elem k).
Qed.

Lemma list_append_owns h l vals r bp :
  owns h0 h l vals -> h0 !! r = None -> h !! r = Some (OBreak bp) ->
  exists h', list_append l r h = Some (tt, h')
    /\ owns h0 h' l (vals ++ [bp]).
Proof.
  intros Ho Hr0 Hr. pose proof Ho as (_ & _ & items & Hl & HF).
  unfold list_append.
  rewrite (bind_Some _ _ h h items) by (by apply get_list_Some).
  rewrite (set_list_Some _ _ _ _ Hl). eexists. split; [done|].
  eapply owns_set; [exact Ho|].
  apply Forall2_app; [done|]. by repeat constructor.
Qed.
End frame.

(** ** The two functions over the store *)

Section calls.
Context (h0 : heap).

Lemma seed_records h (T : list (loc * BlackInterval)) :
  h0 ⊆ h ->
  Forall (fun p => h0 !! fst p = Some (OBlack (snd p))) T ->
  exists recs h',
    mapM (fun r => b ← get_black r;
                   alloc (OBreak (mkBreak (center b) black high)))
      (map fst T) h = Some (recs, h')
    /\ h ⊆ h'
    /\ Forall2 (fun r bp => h0 !! r = None /\ h' !! r = Some (OBreak bp))
         recs (seed (map snd T)).
Proof.
  intros Hsub HT. revert h Hsub.
  induction HT as [|[r b] T Hr _ IH]; intros h Hsub; simpl in *.
  - exists [], h. by repeat split.
  - assert (h !! r = Some (OBlack b)) as Hrh by (by eapply lookup_weaken).
    destruct (alloc_Some (OBreak (mkBreak (center b) black high)) h)
      as (l & Hl & Ha).
    set (h1 := <[l:=OBreak (mkBreak (center b) black high)]> h) in *.
    assert (h ⊆ h1) as H01 by (by apply insert_subseteq).
    destruct (IH h1) as (recs & h' & Hm & H1' & HF);
      [by etrans|].
    exists (l :: recs), h'. split; [|split].
    + rewrite (bind_Some _ _ h h1 l).
      2:{ rewrite (bind_Some _ _ h h b); [done|]. by apply get_black_Some. }
      by rewrite (bind_Some _ _ _ _ _ Hm).
    + by etrans.
    + constructor; [|done]. split.
      * by eapply lookup_weaken_None.
      * eapply lookup_weaken; [|exact H1']. by apply lookup_insert_eq.
Qed.

Lemma seed_h_owns blacks bvals :
  blacks_at h0 blacks = Some bvals ->
  exists l h, seed_h blacks h0 = Some (l, h) /\ owns h0 h l (seed bvals).
Proof.
  intros (items & Hl & HF)%blacks_at_Some.
  apply Forall2_pairs in HF as (T & <- & <- & HT).
  destruct (seed_records h0 T) as (recs & h1 & Hm & Hsub & HF); [done..|].
  destruct (alloc_Some (OList recs) h1) as (l & Hnew & Ha).
  exists l, (<[l:=OList recs]> h1). split.
  - unfold seed_h.
    rewrite (bind_Some _ _ h0 h0 (map fst T)) by (by apply get_list_Some).
    by rewrite (bind_Some _ _ _ _ _ Hm).
  - split; [|split].
    + apply insert_subseteq_r; [|done]. by eapply lookup_weaken_None.
    + by eapply lookup_weaken_None.
    + exists recs. split; [by rewrite lookup_insert_eq|].
      eapply Forall2_impl; [exact HF|]. intros r bp [Hr0 Hr].
      split; [done|]. rewrite lookup_insert_ne; [done|].
      intros ->. congruence.
Qed.

Lemma coverage_gaps_h_owns h l vals duration max_gap :
  owns h0 h l vals ->
  coverage_gaps_h l duration max_gap h
  = Some (coverage_gaps duration max_gap vals, h).
Proof.
  intros (_ & _ & items & Hl & HF). unfold coverage_gaps_h.
  rewrite (bind_Some _ _ h h items) by (by apply get_list_Some).
  rewrite (bind_Some _ _ h h vals); [done|].
  apply mapM_Some. eapply Forall2_impl; [exact HF|].
  intros r bp [_ Hr]. by apply get_break_Some.
Qed.

Lemma fill_gap_h_owns h filled vals scenes svals g :
  scenes_at h0 scenes = Some svals ->
  owns h0 h filled vals ->
  exists h', fill_gap_h scenes filled g h = Some (tt, h')
    /\ owns h0 h' filled
         (match fill_gap svals g with
          | Some bp => vals ++ [bp]
          | None => vals
          end).
Proof.
  intros (items & Hl & HF)%scenes_at_Some Ho.
  pose proof Ho as (Hsub & _).
  apply Forall2_pairs in HF as (T & <- & <- & HT).
  unfold fill_gap_h.
  rewrite (bind_Some _ _ h h (map fst T)).
  2:{ apply get_list_Some. split; [done|]. by eapply lookup_weaken. }
  rewrite (bind_Some _ _ h h (map id T)).
  2:{ apply mapM_pairs. eapply Forall_impl; [exact HT|].
      intros [r s] Hr. simpl in *. unfold with_scene.
      rewrite (bind_Some _ _ h h s); [done|].
      apply get_scene_Some. split; [done|]. by eapply lookup_weaken. }
  rewrite map_id.
  set (cands := List.filter (fun p => is_candidate g (snd p)) T).
  destruct (alloc_Some (OList (map fst cands)) h) as (lc & Hlc & Ha).
  rewrite (bind_Some _ _ _ _ _ Ha).
  pose proof (owns_alloc h0 _ _ _ lc (OList (map fst cands)) Ho Hlc) as Ho1.
  set (h1 := <[lc:=OList (map fst cands)]> h) in *.
  unfold fill_gap, candidates. rewrite filter_map_snd. fold cands.
  destruct cands as [|c cs] eqn:Ec; simpl; [by exists h1|].
  set (best := min_from (fun p => distance (gap_center g) (snd p)) c cs).
  assert (h0 !! fst best = Some (OScene (snd best))) as Hbest.
  { assert (best ∈ T) as Hin.
    { assert (best ∈ c :: cs) as Hb by apply min_from_elem.
      rewrite <- Ec in Hb. apply list_elem_of_In, filter_In in Hb as [Hb _].
      by apply list_elem_of_In. }
    rewrite Forall_forall in HT. by apply HT. }
  destruct Ho1 as (Hsub1 & Ho1').
  rewrite (bind_Some _ _ h1 h1 (snd best)).
  2:{ apply get_scene_Some. split; [done|]. by eapply lookup_weaken. }
  set (bp := mkBreak (scene_timestamp (snd best)) scene medium).
  destruct (alloc_Some (OBreak bp) h1) as (r & Hr & Har).
  rewrite (bind_Some _ _ _ _ _ Har).
  assert (owns h0 (<[r:=OBreak bp]> h1) filled vals) as Ho2
    by (by apply owns_alloc).
  destruct (list_append_owns h0 _ filled vals r bp Ho2) as (h' & Happ & Ho3).
  { by eapply lookup_weaken_None. }
  { by apply lookup_insert_eq. }
  exists h'. split; [done|].
  unfold bp in Ho3. unfold best in Ho3.
  by rewrite (min_from_map snd (distance (gap_center g)) c cs) in Ho3.
Qed.

Lemma fill_loop_owns scenes svals filled gaps h vals :
  scenes_at h0 scenes = Some svals ->
  owns h0 h filled vals ->
  exists ys h', mapM (fill_gap_h scenes filled) gaps h = Some (ys, h')
    /\ owns h0 h' filled (fill_gaps svals gaps vals).
Proof.
  intros Hs. revert h vals.
  induction gaps as [|g gaps IH]; intros h vals Ho; simpl.
  - by exists [], h.
  - destruct (fill_gap_h_owns h filled vals scenes svals g Hs Ho)
      as (h1 & Hf & Ho1).
    destruct (IH _ _ Ho1) as (ys & h' & Hm & Ho').
    exists (tt :: ys), h'. split; [|done].
    rewrite (bind_Some _ _ _ _ _ Hf). by rewrite (bind_Some _ _ _ _ _ Hm).
Qed.

Lemma find_optimal_breaks_h_owns duration blacks silences scenes m
    bvals sils svals :
  blacks_at h0 blacks = Some bvals ->
  scenes_at h0 scenes = Some svals ->
  exists r h',
    find_optimal_breaks_h duration blacks silences scenes m h0 = Some (r, h')
    /\ owns h0 h' r (find_optimal_breaks duration bvals sils svals m).
Proof.
  intros Hb Hs. unfold find_optimal_breaks_h.
  destruct (seed_h_owns blacks bvals Hb) as (breaks & h1 & Hseed & Ho1).
  rewrite (bind_Some _ _ _ _ _ Hseed).
  destruct (sort_in_place_owns h0 _ _ _ Ho1) as (h2 & Hsort & Ho2).
  rewrite (bind_Some _ _ _ _ _ Hsort).
  pose proof Ho2 as (_ & _ & sorted & Hl2 & _).
  rewrite (bind_Some _ _ h2 h2 sorted) by (by apply get_list_Some).
  destruct (alloc_Some (OList sorted) h2) as (filled & Hnew & Ha).
  rewrite (bind_Some _ _ _ _ _ Ha).
  pose proof (owns_copy h0 _ _ _ _ filled Ho2 Hl2 Hnew) as Ho3.
  rewrite (bind_Some _ _ _ _ _
             (coverage_gaps_h_owns _ _ _ duration (max_gap_of m) Ho3)).
  destruct (fill_loop_owns scenes svals filled
              (coverage_gaps duration (max_gap_of m) (sort_by timestamp (seed bvals)))
              _ _ Hs Ho3) as (ys & h4 & Hloop & Ho4).
  rewrite (bind_Some _ _ _ _ _ Hloop).
  destruct (sort_in_place_owns h0 _ _ _ Ho4) as (h5 & Hsort5 & Ho5).
  rewrite (bind_Some _ _ _ _ _ Hsort5).
  by exists filled, h5.
Qed.

Lemma clean_black_spaces_h_frame blacks bvals duration sm em :
  blacks_at h0 blacks = Some bvals ->
  exists r h',
    clean_black_spaces_h blacks duration sm em h0 = Some (r, h')
    /\ h0 ⊆ h' /\ h0 !! r = None
    /\ blacks_at h' r = Some (clean_black_spaces bvals duration sm em)
    /\ (forall l, l ∈ items_at h' r -> l ∈ items_at h0 blacks).
Proof.
  intros (items & Hl & HF)%blacks_at_Some.
  apply Forall2_pairs in HF as (T & <- & <- & HT).
  unfold clean_black_spaces_h.
  rewrite (bind_Some _ _ h0 h0 (map fst T)) by (by apply get_list_Some).
  rewrite (bind_Some _ _ h0 h0 (map id T)).
  2:{ apply mapM_pairs. eapply Forall_impl; [exact HT|].
      intros [r b] Hr. simpl in *. unfold with_black.
      rewrite (bind_Some _ _ h0 h0 b); [done|]. by apply get_black_Some. }
  rewrite map_id.
  set (F := List.filter (fun p => keeps duration sm em (snd p)) T).
  destruct (alloc_Some (OList (map fst F)) h0) as (r & Hr & Ha).
  exists r, (<[r:=OList (map fst F)]> h0).
  assert (h0 ⊆ <[r:=OList (map fst F)]> h0) as Hsub
    by (by apply insert_subseteq).
  split; [done|]. split; [done|]. split; [done|]. split.
  - apply blacks_at_Some. exists (map fst F).
    split; [by rewrite lookup_insert_eq|].
    unfold clean_black_spaces. rewrite filter_map_snd. fold F.
    apply pairs_Forall2. apply Forall_forall. intros p Hp.
    eapply lookup_weaken; [|exact Hsub].
    rewrite Forall_forall in HT. apply HT.
    apply list_elem_of_In, filter_In in Hp as [Hp _].
    by apply list_elem_of_In.
  - intros l. unfold items_at. rewrite lookup_insert_eq, Hl.
    intros (p & -> & Hp)%list_elem_of_fmap.
    apply list_elem_of_fmap. exists p. split; [done|].
    apply list_elem_of_In, filter_In in Hp as [Hp _].
    by apply list_elem_of_In.
Qed.
End calls.

(** C10.  Over the store, a call of either function on a list of black
    intervals and a list of scene cuts returns, and everything that was in
    the store before the call (the three input lists, the records in
    them, anything else) is there unchanged afterwards.  The result is a
    list object that did not exist before.  The cleaner's list holds
    references to the input records it kept; every item of the selector's
    list is a record that did not exist before.  Read back, the results
    are those of the functions on values; this holds for any reference
    passed as [silences], which is never followed. *)
Theorem calls_leave_store_unchanged (h0 : heap) (duration sm em : Q)
    (blacks silences scenes : loc) (m : Z)
    (bvals : list BlackInterval) (svals : list SceneCut) :
  blacks_at h0 blacks = Some bvals ->
  scenes_at h0 scenes = Some svals ->
  (exists r h',
      clean_black_spaces_h blacks duration sm em h0 = Some (r, h')
      /\ (forall l o, h0 !! l = Some o -> h' !! l = Some o)
      /\ h0 !! r = None
      /\ (forall l, l ∈ items_at h' r -> l ∈ items_at h0 blacks)
      /\ blacks_at h' r = Some (clean_black_spaces bvals duration sm em))
  /\ (exists r h',
        find_optimal_breaks_h duration blacks silences scenes m h0 = Some (r, h')
        /\ (forall l o, h0 !! l = Some o -> h' !! l = Some o)
        /\ h0 !! r = None
        /\ (forall l, l ∈ items_at h' r -> h0 !! l = None)
        /\ forall sils,
             breaks_at h' r
             = Some (find_optimal_breaks duration bvals sils svals m)).
Proof.
  intros Hb Hs. split.
  - destruct (clean_black_spaces_h_frame h0 blacks bvals duration sm em Hb)
      as (r & h' & Hc & Hsub & Hr & Hv & Hitems).
    exists r, h'. repeat split; try done.
    intros l o Hl. by eapply lookup_weaken.
  - destruct (find_optimal_breaks_h_owns h0 duration blacks silences scenes m
                bvals [] svals Hb Hs) as (r & h' & Hf & Ho).
    exists r, h'. split; [done|].
    pose proof Ho as (Hsub & Hr & _).
    split; [intros l o Hl; by eapply lookup_weaken|].
    split; [done|]. split.
    + intros l Hl. by eapply owns_items_fresh.
    + intros sils. by eapply owns_breaks_at.
Qed.

(** ** The theorems at concrete inputs *)



Lemma calls_leave_store_unchanged_witness :
  blacks_at sample_store 1%positive = Some sample_blacks
  /\ scenes_at sample_store 2%positive = Some sample_scenes
  /\ exists r h',
       find_optimal_breaks_h 3600 1%positive 9%positive 2%positive 12 sample_store
         = Some (r, h')
       /\ (forall l o, sample_store !! l = Some o -> h' !! l = Some o)
       /\ sample_store !! r = None
       /\ (forall l, l ∈ items_at h' r -> sample_store !! l = None)
       /\ forall sils,
            breaks_at h' r
            = Some (find_optimal_breaks 3600 sample_blacks sils sample_scenes 12).
Proof.
  assert (blacks_at sample_store 1%positive = Some sample_blacks) as Hb
    by (vm_compute; reflexivity).
  assert (scenes_at sample_store 2%positive = Some sample_scenes) as Hs
    by (vm_compute; reflexivity).
  split; [exact Hb|]. split; [exact Hs|].
  exact (proj2 (calls_leave_store_unchanged sample_store 3600 20 10
                  1%positive 9%positive 2%positive 12
                  sample_blacks sample_scenes Hb Hs)).
Defined.

(** * Further properties of the core *)

(** ** More on the stable sort *)


Lemma Qltb_same_key (a b k : Q) : a == k -> b == k -> Qltb a b = false.
Proof. intros Ha Hb. apply Qltb_ge. rewrite Ha, Hb. apply Qle_refl. Qed.

Lemma insert_by_filter_key {A : Type} (key : A -> Q) (k : Q) (x : A) (l : list A) :
  List.filter (fun a => Qeq_bool (key a) k) (insert_by key x l)
  = List.filter (fun a => Qeq_bool (key a) k) (x :: l).
Proof.
  induction l as [|y l IH]; [done|].
  cbn [insert_by]. destruct (Qltb (key y) (key x)) eqn:E; [|done].
  cbn [List.filter] in *. rewrite IH.
  destruct (Qeq_bool (key x) k) eqn:Ex; [|done].
  destruct (Qeq_bool (key y) k) eqn:Ey; [|done].
  apply Qeq_bool_iff in Ex, Ey.
  rewrite (Qltb_same_key _ _ k Ey Ex) in E. discriminate.
Qed.

Lemma sort_by_filter_key {A : Type} (key : A -> Q) (k : Q) (l : list A) :
  List.filter (fun a => Qeq_bool (key a) k) (sort_by key l)
  = List.filter (fun a => Qeq_bool (key a) k) l.
Proof.
  induction l as [|x l IH]; [done|].
  unfold sort_by in *. cbn [foldr]. rewrite insert_by_filter_key.
  cbn [List.filter]. by rewrite IH.
Qed.

(** ** The cleaner, applied twice *)



(** ** Edge cases of the selector *)

Lemma fill_gap_no_scene g : fill_gap [] g = None.
Proof. done. Qed.






(** ** Order of equal timestamps *)

(** Breaks with the same timestamp keep the order in which they were
    produced: first the black breaks, in the order of the black intervals,
    then the filled breaks, in the order of their gaps. *)
Theorem equal_timestamps_keep_order (duration : Q) (blacks : list BlackInterval)
    (silences : list SilenceInterval) (scenes : list SceneCut) (m : Z) (k : Q) :
  List.filter (fun b => Qeq_bool (timestamp b) k)
    (find_optimal_breaks duration blacks silences scenes m)
  = List.filter (fun b => Qeq_bool (timestamp b) k) (seed blacks)
    ++ List.filter (fun b => Qeq_bool (timestamp b) k)
         (omap (fill_gap scenes) (gaps_of duration blacks m)).
Proof.
  unfold find_optimal_breaks, sort_by_timestamp.
  rewrite sort_by_filter_key, fill_gaps_app, List.filter_app.
  unfold high_breaks, sort_by_timestamp. by rewrite sort_by_filter_key.
Qed.

(** ** Gaps and the breaks around them *)





(** ** How many breaks *)

Lemma length_flat_map_le {A B : Type} (f : A -> list B) (l : list A) :
  (forall a, (length (f a) <= 1)%nat) ->
  (length (flat_map f l) <= length l)%nat.
Proof.
  intros Hf. induction l as [|a l IH]; simpl; [lia|].
  rewrite length_app. specialize (Hf a). lia.
Qed.

Lemma length_gap_at max_gap filled i : (length (gap_at max_gap filled i) <= 1)%nat.
Proof.
  unfold gap_at. destruct (filled !! i), (filled !! S i); simpl; try lia.
  destruct (Qltb _ _); simpl; lia.
Qed.

Lemma length_coverage_gaps duration max_gap filled :
  (length (coverage_gaps duration max_gap filled) <= Nat.max 1 (length filled))%nat.
Proof.
  destruct filled as [|f rest]; [simpl; lia|].
  unfold coverage_gaps. rewrite length_app.
  pose proof (length_flat_map_le (gap_at max_gap (f :: rest))
                (seq 0 (length (f :: rest) - 1)) (length_gap_at _ _)) as Hl.
  rewrite length_seq in Hl.
  set (n := length (flat_map _ _)) in *.
  cbn [length] in *.
  destruct (Qltb max_gap (timestamp f)); cbn [length]; lia.
Qed.

Lemma length_omap_le {A B : Type} (f : A -> option B) (l : list A) :
  (length (omap f l) <= length l)%nat.
Proof.
  induction l as [|a l IH]; [simpl; lia|].
  change (omap f (a :: l))
    with (match f a with Some y => y :: omap f l | None => omap f l end).
  destruct (f a); cbn [length]; lia.
Qed.

(** The result holds every black break and at most one filled break per
    gap: between [n] and [2n] breaks for [n >= 1] black intervals, at most
    one for none. *)
Theorem break_count_bounds (duration : Q) (blacks : list BlackInterval)
    (silences : list SilenceInterval) (scenes : list SceneCut) (m : Z) :
  (length blacks
   <= length (find_optimal_breaks duration blacks silences scenes m)
   <= length blacks + Nat.max 1 (length blacks))%nat.
Proof.
  assert (length (find_optimal_breaks duration blacks silences scenes m)
     = (length blacks
        + length (omap (fill_gap scenes) (gaps_of duration blacks m)))%nat) as ->.
  { rewrite find_optimal_breaks_perm, length_app.
    unfold high_breaks, sort_by_timestamp. rewrite sort_by_perm.
    unfold seed. by rewrite length_map. }
  split; [lia|].
  pose proof (length_omap_le (fill_gap scenes) (gaps_of duration blacks m)).
  pose proof (length_coverage_gaps duration (max_gap_of m) (high_breaks blacks))
    as Hg.
  fold (gaps_of duration blacks m) in Hg.
  assert (length (high_breaks blacks) = length blacks) as Hl.
  { unfold high_breaks, sort_by_timestamp. rewrite sort_by_perm.
    unfold seed. by rewrite length_map. }
  rewrite Hl in Hg. lia.
Qed.

(** ** Raising the gap threshold *)

Lemma gap_at_sublist mg mg' filled i :
  mg <= mg' -> sublist (gap_at mg' filled i) (gap_at mg filled i).
Proof.
  intros Hle. unfold gap_at.
  destruct (filled !! i) as [p|]; [|done].
  destruct (filled !! S i) as [n|]; [|done].
  destruct (Qltb mg' (timestamp n - timestamp p)) eqn:E; [|apply sublist_nil_l].
  apply Qltb_lt in E.
  assert (mg < timestamp n - timestamp p) as E' by (by eapply Qle_lt_trans).
  apply Qltb_lt in E'. by rewrite E'.
Qed.

Lemma flat_map_sublist {A B : Type} (f g : A -> list B) (l : list A) :
  (forall a, sublist (f a) (g a)) -> sublist (flat_map f l) (flat_map g l).
Proof.
  intros Hfg. induction l as [|a l IH]; simpl; [done|]. by apply sublist_app.
Qed.

Lemma coverage_gaps_sublist duration mg mg' filled :
  mg <= mg' ->
  sublist (coverage_gaps duration mg' filled) (coverage_gaps duration mg filled).
Proof.
  intros Hle. destruct filled as [|f rest]; [done|].
  unfold coverage_gaps. apply sublist_app.
  - destruct (Qltb mg' (timestamp f)) eqn:E; [|apply sublist_nil_l].
    apply Qltb_lt in E.
    assert (mg < timestamp f) as E' by (by eapply Qle_lt_trans).
    apply Qltb_lt in E'. by rewrite E'.
  - apply flat_map_sublist. intros i. by apply gap_at_sublist.
Qed.

Lemma omap_sublist {A B : Type} (f : A -> option B) (l1 l2 : list A) :
  sublist l1 l2 -> sublist (omap f l1) (omap f l2).
Proof.
  induction 1 as [|x l1 l2 _ IH|x l1 l2 _ IH]; [done|..].
  - change (sublist (match f x with Some y => y :: omap f l1 | None => omap f l1 end)
                    (match f x with Some y => y :: omap f l2 | None => omap f l2 end)).
    destruct (f x); [by constructor|done].
  - change (sublist (omap f l1)
                    (match f x with Some y => y :: omap f l2 | None => omap f l2 end)).
    destruct (f x); [by constructor|done].
Qed.

(** A larger [max_gap_minutes] never adds a gap or a break: the gaps for
    the larger value are a sublist of those for the smaller one, every
    break returned for the larger value is returned for the smaller one,
    and there are no more of them. *)
Theorem larger_max_gap_fewer_breaks (duration : Q) (blacks : list BlackInterval)
    (silences : list SilenceInterval) (scenes : list SceneCut) (m m' : Z) :
  (m <= m')%Z ->
  sublist (gaps_of duration blacks m') (gaps_of duration blacks m)
  /\ (forall b, b ∈ find_optimal_breaks duration blacks silences scenes m' ->
        b ∈ find_optimal_breaks duration blacks silences scenes m)
  /\ (length (find_optimal_breaks duration blacks silences scenes m')
      <= length (find_optimal_breaks duration blacks silences scenes m))%nat.
Proof.
  intros Hm.
  assert (sublist (gaps_of duration blacks m') (gaps_of duration blacks m)) as Hs.
  { apply coverage_gaps_sublist. unfold max_gap_of.
    rewrite <- Zle_Qle. lia. }
  pose proof (omap_sublist (fill_gap scenes) _ _ Hs) as Ho.
  split; [done|]. split.
  - intros b. rewrite !elem_of_find_optimal_breaks.
    intros [Hb|(g & Hg & Hf)]; [by left|].
    right. exists g. split; [|done]. by eapply elem_of_sublist.
  - rewrite !find_optimal_breaks_perm, !length_app.
    apply sublist_length in Ho. lia.
Qed.

Lemma larger_max_gap_fewer_breaks_witness :
  (12 <= 40)%Z
  /\ (length (find_optimal_breaks 3600 sample_blacks [] sample_scenes 40)
      <= length (find_optimal_breaks 3600 sample_blacks [] sample_scenes 12))%nat.
Proof.
  assert (12 <= 40)%Z as H by lia.
  split; [exact H|].
  exact (proj2 (proj2 (larger_max_gap_fewer_breaks 3600 sample_blacks []
                         sample_scenes 12 40 H))).
Defined.

(** ** The pipeline of [process_video] *)




(** ** The chapters as a partition of the timeline *)

Lemma chapters_length break_points duration :
  length (chapters break_points duration) = S (length break_points).
Proof.
  unfold chapters.
  pose proof (chapter_loop_length 0 1 break_points) as Hlen.
  destruct (chapter_loop 0 1 break_points) as [cs prev]. simpl in *.
  rewrite length_app, Hlen. simpl. lia.
Qed.

Lemma chapters_lookup_break break_points duration k bp :
  break_points !! k = Some bp ->
  chapters break_points duration !! k
  = Some (mkChapter (to_ms (chapter_start break_points k))
            (to_ms (timestamp bp)) (chapter_title (S k))).
Proof.
  intros Hk. unfold chapters.
  pose proof (chapter_loop_length 0 1 break_points) as Hlen.
  pose proof (chapter_loop_lookup 0 1 break_points k bp Hk) as Hlook.
  destruct (chapter_loop 0 1 break_points) as [cs prev]. simpl in *.
  rewrite lookup_app_l; [done|]. rewrite Hlen. by eapply lookup_lt_Some.
Qed.

Lemma chapters_lookup_last break_points duration :
  chapters break_points duration !! length break_points
  = Some (mkChapter (to_ms (chapter_start break_points (length break_points)))
            (to_ms duration) (chapter_title (S (length break_points)))).
Proof.
  unfold chapters.
  pose proof (chapter_loop_length 0 1 break_points) as Hlen.
  pose proof (chapter_loop_prev 0 1 break_points) as Hprev.
  destruct (chapter_loop 0 1 break_points) as [cs prev]. simpl in *.
  rewrite lookup_app_r by lia. rewrite Hlen, Nat.sub_diag. simpl.
  by rewrite Hprev, Nat.add_1_r.
Qed.

(** Every chapter is either one that ends at a break or the closing one. *)
Lemma chapters_lookup_inv break_points duration k c :
  chapters break_points duration !! k = Some c ->
  ch_start c = to_ms (chapter_start break_points k)
  /\ ((exists bp, break_points !! k = Some bp /\ ch_end c = to_ms (timestamp bp))
      \/ (k = length break_points /\ ch_end c = to_ms duration)).
Proof.
  intros Hk. pose proof (lookup_lt_Some _ _ _ Hk) as Hlt.
  rewrite chapters_length in Hlt.
  destruct (decide (k < length break_points)%nat) as [Hin|Hout].
  - destruct (lookup_lt_is_Some_2 break_points k Hin) as [bp Hbp].
    rewrite (chapters_lookup_break _ _ _ _ Hbp) in Hk. injection Hk as <-.
    split; [done|]. left. by exists bp.
  - assert (k = length break_points) as -> by lia.
    rewrite chapters_lookup_last in Hk. injection Hk as <-.
    split; [done|]. by right.
Qed.

(** The chapters written for any break list cover the timeline without
    holes or overlaps: the first starts at 0, each next one starts where
    the one before it ends, and the last ends at the duration. *)
Theorem chapters_tile_timeline (break_points : list BreakPoint) (duration : Q) :
  (exists c, chapters break_points duration !! 0%nat = Some c /\ ch_start c = 0%Z)
  /\ (forall k c c',
        chapters break_points duration !! k = Some c ->
        chapters break_points duration !! S k = Some c' ->
        ch_start c' = ch_end c)
  /\ (exists c, last (chapters break_points duration) = Some c
        /\ ch_end c = to_ms duration).
Proof.
  split; [|split].
  - destruct (lookup_lt_is_Some_2 (chapters break_points duration) 0) as [c Hc].
    { rewrite chapters_length. lia. }
    exists c. split; [done|].
    by destruct (chapters_lookup_inv _ _ _ _ Hc) as [-> _].
  - intros k c c' Hc Hc'.
    destruct (chapters_lookup_inv _ _ _ _ Hc') as [-> _].
    pose proof (lookup_lt_Some _ _ _ Hc') as Hlt.
    rewrite chapters_length in Hlt.
    destruct (chapters_lookup_inv _ _ _ _ Hc) as [_ [(bp & Hbp & ->)|[-> _]]];
      [|lia].
    simpl. by rewrite Hbp.
  - rewrite last_lookup, chapters_length. simpl.
    rewrite chapters_lookup_last. eexists. by split.
Qed.

(** ** Milliseconds *)









(** ** From the probes to the metadata *)



(** ** The files of the remux step *)

Lemma string_length_app (s1 s2 : string) :
  String.length (s1 +:+ s2) = (String.length s1 + String.length s2)%nat.
Proof. induction s1 as [|c s1 IH]; simpl; [done|]. by rewrite IH. Qed.

Lemma string_app_inv_head (s s1 s2 : string) : s +:+ s1 = s +:+ s2 -> s1 = s2.
Proof.
  induction s as [|c s IH]; simpl; [done|]. intros [= H]. by apply IH.
Qed.

(** Whatever the path, as long as the splitter loses nothing of it:
    without [overwrite] the output file is neither the input file nor the
    metadata file; with [overwrite] it is the input file; the metadata
    file is the same in both modes. *)
Theorem output_file_apart (splitext : string -> string * string)
    (video_file : string) (break_points : list BreakPoint) (duration : Q) :
  splits splitext ->
  rm_output (write_chapters_to_video splitext video_file break_points duration false)
    <> video_file
  /\ rm_output (write_chapters_to_video splitext video_file break_points duration false)
     <> rm_metadata_file
          (write_chapters_to_video splitext video_file break_points duration false)
  /\ rm_output (write_chapters_to_video splitext video_file break_points duration true)
     = video_file
  /\ rm_metadata_file
       (write_chapters_to_video splitext video_file break_points duration true)
     = rm_metadata_file
         (write_chapters_to_video splitext video_file break_points duration false).
Proof.
  intros Hsplit. unfold write_chapters_to_video.
  specialize (Hsplit video_file).
  destruct (splitext video_file) as [base ext]. simpl in *.
  split; [|split; [|done]].
  - intros Heq. rewrite <- Hsplit in Heq.
    apply (f_equal String.length) in Heq.
    rewrite !string_length_app in Heq. simpl in Heq. lia.
  - intros Heq. apply string_app_inv_head in Heq. discriminate.
Qed.

Lemma string_app_empty (s : string) : s +:+ "" = s.
Proof.
  induction s as [|c s IH]; [done|].
  change (String c (s +:+ "") = String c s). by rewrite IH.
Qed.

Lemma splitext_no_ext_splits : splits splitext_no_ext.
Proof. intros p. apply string_app_empty. Qed.

Lemma output_file_apart_witness :
  splits splitext_no_ext
  /\ rm_output (write_chapters_to_video splitext_no_ext "video" [] 120 false)
     <> "video".
Proof.
  split; [exact splitext_no_ext_splits|].
  exact (proj1 (output_file_apart splitext_no_ext "video" [] 120
                  splitext_no_ext_splits)).
Defined.

(** ** The pipeline over the store *)

Lemma scenes_at_mono h h' l vals :
  h ⊆ h' -> scenes_at h l = Some vals -> scenes_at h' l = Some vals.
Proof.
  intros Hsub (items & Hl & HF)%scenes_at_Some. apply scenes_at_Some.
  exists items. split; [by eapply lookup_weaken|].
  eapply Forall2_impl; [exact HF|]. intros r s Hr.
  exact (lookup_weaken _ _ _ _ Hr Hsub).
Qed.

(** Cleaning and then selecting, as [process_video] does on the lists the
    probes returned: the call returns; those lists and every record in
    them are unchanged afterwards, although the cleaned list that the
    selector works on shares its records with the probe's list; the
    result is a new list of new records, and it reads back as the breaks
    of the pipeline on values. *)
Theorem video_breaks_h_leaves_probes_unchanged (h0 : heap) (duration : Q)
    (blacks silences scenes : loc) (m : Z)
    (bvals : list BlackInterval) (svals : list SceneCut) :
  blacks_at h0 blacks = Some bvals ->
  scenes_at h0 scenes = Some svals ->
  exists r h',
    video_breaks_h duration blacks silences scenes m h0 = Some (r, h')
    /\ (forall l o, h0 !! l = Some o -> h' !! l = Some o)
    /\ blacks_at h' blacks = Some bvals
    /\ scenes_at h' scenes = Some svals
    /\ h0 !! r = None
    /\ (forall l, l ∈ items_at h' r -> h0 !! l = None)
    /\ forall sils,
         breaks_at h' r = Some (video_breaks duration bvals sils svals m).
Proof.
  intros Hb Hs.
  destruct (clean_black_spaces_h_frame h0 blacks bvals duration 20 10 Hb)
    as (r1 & h1 & Hc & Hsub1 & _ & Hv1 & _).
  pose proof (scenes_at_mono _ _ _ _ Hsub1 Hs) as Hs1.
  destruct (find_optimal_breaks_h_owns h1 duration r1 silences scenes m
              _ [] svals Hv1 Hs1) as (r & h' & Hf & Ho).
  pose proof Ho as (Hsub2 & Hr & _).
  assert (h0 ⊆ h') as Hsub by (by etrans).
  exists r, h'. split.
  { unfold video_breaks_h. by rewrite (bind_Some _ _ _ _ _ Hc). }
  split; [intros l o Hl; by eapply lookup_weaken|].
  split.
  { apply blacks_at_Some in Hb as (items & Hl & HF). apply blacks_at_Some.
    exists items. split; [by eapply lookup_weaken|].
    eapply Forall2_impl; [exact HF|]. intros x b Hx.
    exact (lookup_weaken _ _ _ _ Hx Hsub). }
  split; [by eapply scenes_at_mono|].
  split; [by eapply lookup_weaken_None|].
  split.
  - intros l Hl. eapply lookup_weaken_None; [|exact Hsub1].
    by eapply owns_items_fresh.
  - intros sils. by eapply owns_breaks_at.
Qed.

Lemma video_breaks_h_leaves_probes_unchanged_witness :
  blacks_at sample_store 1%positive = Some sample_blacks
  /\ scenes_at sample_store 2%positive = Some sample_scenes
  /\ exists r h',
       video_breaks_h 3600 1%positive 9%positive 2%positive 12 sample_store
         = Some (r, h')
       /\ (forall l o, sample_store !! l = Some o -> h' !! l = Some o)
       /\ blacks_at h' 1%positive = Some sample_blacks
       /\ scenes_at h' 2%positive = Some sample_scenes
       /\ sample_store !! r = None
       /\ (forall l, l ∈ items_at h' r -> sample_store !! l = None)
       /\ forall sils,
            breaks_at h' r
            = Some (video_breaks 3600 sample_blacks sils sample_scenes 12).
Proof.
  assert (blacks_at sample_store 1%positive = Some sample_blacks) as Hb
    by (vm_compute; reflexivity).
  assert (scenes_at sample_store 2%positive = Some sample_scenes) as Hs
    by (vm_compute; reflexivity).
  split; [exact Hb|]. split; [exact Hs|].
  exact (video_breaks_h_leaves_probes_unchanged sample_store 3600
           1%positive 9%positive 2%positive 12 sample_blacks sample_scenes Hb Hs).
Defined.

(** ** The table *)

Lemma format_02d_width (s : Z) :
  (0 <= s < 60)%Z -> String.length (format_02d s) = 2%nat.
Proof.
  intros Hs. rewrite <- (Z2Nat.id s) by lia.
  assert (Z.to_nat s < 60)%nat as Hn by lia.
  generalize dependent (Z.to_nat s). intros n Hn.
  do 60 (destruct n as [|n]; [reflexivity|]). lia.
Qed.

Lemma py_int_nonneg (t : Q) : 0 <= t -> (0 <= py_int t)%Z.
Proof.
  intros Ht. unfold py_int. apply Z.quot_pos; [|lia].
  unfold Qle in Ht. simpl in Ht. lia.
Qed.

(** The table has one row per break, numbered from 1 in the order of the
    breaks.  The label of a break is [m:ss] where [60 * m + ss] is the
    timestamp cut to whole seconds and [ss], between 0 and 59, always takes
    exactly two characters; [m] is not negative when the timestamp is
    not. *)
Theorem table_rows_labels (breaks : list BreakPoint) :
  length (table_rows breaks) = length breaks
  /\ forall i b, breaks !! i = Some b ->
       exists mm ss,
         table_rows breaks !! i
         = Some (pretty (S i), pretty mm +:+ ":" +:+ format_02d ss)
         /\ (60 * mm + ss = py_int (timestamp b))%Z
         /\ (0 <= ss < 60)%Z
         /\ String.length (format_02d ss) = 2%nat
         /\ (0 <= timestamp b -> (0 <= mm)%Z).
Proof.
  unfold table_rows. split; [apply length_imap|].
  intros i b Hb. rewrite list_lookup_imap, Hb. simpl.
  set (t := py_int (timestamp b)).
  exists (t / 60)%Z, (t mod 60)%Z.
  pose proof (Z.mod_pos_bound t 60 ltac:(lia)) as Hmod.
  split; [done|]. split; [symmetry; apply Z.div_mod; lia|].
  split; [done|]. split; [by apply format_02d_width|].
  intros Ht. apply Z.div_pos; [|lia]. by apply py_int_nonneg.
Qed.

Lemma table_rows_labels_witness :
  [mkBreak 101 black high; mkBreak (2201 # 2) scene medium] !! 1%nat
    = Some (mkBreak (2201 # 2) scene medium)
  /\ exists mm ss,
       table_rows [mkBreak 101 black high; mkBreak (2201 # 2) scene medium] !! 1%nat
       = Some (pretty 2%nat, pretty mm +:+ ":" +:+ format_02d ss)
       /\ (60 * mm + ss = py_int (2201 # 2))%Z
       /\ (0 <= ss < 60)%Z
       /\ String.length (format_02d ss) = 2%nat
       /\ (0 <= 2201 # 2 -> (0 <= mm)%Z).
Proof.
  split; [reflexivity|].
  exact (proj2 (table_rows_labels
                  [mkBreak 101 black high; mkBreak (2201 # 2) scene medium])
           1%nat (mkBreak (2201 # 2) scene medium) eq_refl).
Defined.

(** * The program on floats *)

(** ** The rounding against the machine's *)

(** On the operations of the examples below, [round_binary64] returns
    what the machine's binary64 operation returns, and the literals
    denote the floats they are named after. *)
Example round_binary64_as_the_machine :
  float_value 0x1.919999999999ap+4%float == d25_1
  /\ float_value 0x1.748cccccccccdp+9%float == d745_1
  /\ float_value 0x1.e333333333333p+4%float == d30_2
  /\ float_value 0x1.8333333333333p+6%float == d96_8
  /\ float_value 0x1.e0083126e978dp+4%float == d30_002
  /\ float_value (PrimFloat.sub 0x1.748cccccccccdp+9 0x1.919999999999ap+4)%float
     == fsub d745_1 d25_1
  /\ float_value (PrimFloat.sub 0x1.e333333333333p+4 0x1.fc00000000000p+5)%float
     == fsub d30_2 (127 # 2)
  /\ float_value (PrimFloat.sub 0x1.8333333333333p+6 0x1.fc00000000000p+5)%float
     == fsub d96_8 (127 # 2)
  /\ float_value (PrimFloat.mul 0x1.e0083126e978dp+4 0x1.f400000000000p+9)%float
     == fmul d30_002 1000
  /\ float_value (PrimFloat.div
                    (PrimFloat.add 0x1.9000000000000p+4 0x1.9333333333333p+4)
                    0x1.0000000000000p+1)%float
     == fdiv (fadd 25 d25_2) 2
  /\ fdiv (fadd 25 d25_2) 2 == d25_1
  /\ fdiv (fadd 745 d745_2) 2 == d745_1.
Proof. repeat split; by vm_compute. Qed.

(** On every pair of the grid, each of the four operations on rationals
    returns what the machine's returns. *)
Example round_binary64_on_grid : agrees_on_grid = true.
Proof. by vm_compute. Qed.

(** ** Coverage gaps on floats *)

Lemma b64_elem_of_gap_at max_gap filled i g :
  g ∈ Binary64.gap_at max_gap filled i <->
  exists p n, filled !! i = Some p /\ filled !! S i = Some n
    /\ g = (timestamp p, timestamp n)
    /\ max_gap < fsub (timestamp n) (timestamp p).
Proof.
  unfold Binary64.gap_at. split.
  - destruct (filled !! i) as [p|] eqn:Hp; [|by intros ?%elem_of_nil].
    destruct (filled !! S i) as [n|] eqn:Hn; [|by intros ?%elem_of_nil].
    destruct (Qltb max_gap (fsub (timestamp n) (timestamp p))) eqn:E;
      [|by intros ?%elem_of_nil].
    intros ->%list_elem_of_singleton. exists p, n.
    repeat split; try done. by apply Qltb_lt.
  - intros (p & n & -> & -> & -> & Hlt).
    apply Qltb_lt in Hlt. rewrite Hlt. by apply list_elem_of_singleton.
Qed.

Lemma b64_elem_of_neighbour_gaps max_gap filled g :
  g ∈ flat_map (Binary64.gap_at max_gap filled) (seq 0 (length filled - 1)) <->
  exists i p n, filled !! i = Some p /\ filled !! S i = Some n
    /\ g = (timestamp p, timestamp n)
    /\ max_gap < fsub (timestamp n) (timestamp p).
Proof.
  rewrite list_elem_of_In, in_flat_map. split.
  - intros (i & _ & Hg). exists i.
    apply list_elem_of_In in Hg. by apply b64_elem_of_gap_at.
  - intros (i & p & n & Hp & Hn & Hg & Hlt). exists i. split.
    + apply in_seq. apply lookup_lt_Some in Hn. lia.
    + apply list_elem_of_In. apply b64_elem_of_gap_at. by exists p, n.
Qed.

Lemma b64_coverage_gaps_described duration max_gap filled :
  computed_gaps_described max_gap duration filled
    (Binary64.coverage_gaps duration max_gap filled).
Proof.
  destruct filled as [|f rest]; [done|].
  unfold computed_gaps_described, Binary64.coverage_gaps. intros g.
  rewrite elem_of_app, b64_elem_of_neighbour_gaps.
  apply or_iff_compat_r.
  destruct (Qltb max_gap (timestamp f)) eqn:E.
  - rewrite list_elem_of_singleton. apply Qltb_lt in E. tauto.
  - split; [by intros ?%elem_of_nil|].
    intros [_ Hlt]. apply Qltb_lt in Hlt. congruence.
Qed.

(** C1, as the program has it.  The fifth argument of
    [find_optimal_breaks] is a number of minutes, which the function
    multiplies by 60 itself, and the distance of two neighbours is the
    float their subtraction returns.  With that threshold and that
    difference the gaps are as described: the single gap [(0, duration)]
    when there is no high-confidence break, whatever the threshold and the
    duration; otherwise the leading gap iff the first break is beyond the
    threshold, and one gap per pair of neighbours whose computed
    difference exceeds it. *)
Theorem computed_gaps_of_described (duration : Q) (blacks : list BlackInterval)
    (max_gap_minutes : Z) :
  computed_gaps_described (inject_Z (max_gap_minutes * 60)) duration
    (high_breaks blacks) (Binary64.gaps_of duration blacks max_gap_minutes)
  /\ Binary64.gaps_of duration [] max_gap_minutes = [(0, duration)]
  /\ (high_breaks blacks = [] <-> blacks = []).
Proof.
  split; [apply b64_coverage_gaps_described|].
  split; [done|].
  split; [|by intros ->].
  intros H. apply sort_by_nil_inv in H.
  destruct blacks; [done|discriminate].
Qed.

(** C1, as the claim words it, fails: read as a number of seconds, a
    threshold of 1 puts a leading gap before a first break at 30 s, but
    the call with 1 compares against 60 and finds no gap. *)
Lemma computed_gaps_in_seconds_counterexample :
  ~ computed_gaps_described (inject_Z 1) 100
      (high_breaks [mkBlack 29 31 30])
      (Binary64.gaps_of 100 [mkBlack 29 31 30] 1).
Proof.
  intros H. simpl in H.
  destruct (H (0, 30)) as [_ Hin].
  assert ((0, 30) ∈ Binary64.gaps_of 100 [mkBlack 29 31 30] 1) as Hbad.
  { apply Hin. left. split; [done|]. by apply Qltb_lt. }
  vm_compute in Hbad. by apply elem_of_nil in Hbad.
Qed.

(** Where the rounding shows: the centres 25.1 and 745.1 are more than
    720 apart as rationals, their float difference is 720 exactly, and
    with 12 minutes the program finds no gap between them. *)
Example rounded_difference_is_not_a_gap :
  720 < d745_1 - d25_1
  /\ fsub d745_1 d25_1 == 720
  /\ Binary64.gaps_of 3600 twelve_minutes_apart 12 = []
  /\ gaps_of 3600 twelve_minutes_apart 12 = [(d25_1, d745_1)].
Proof. repeat split; by vm_compute. Qed.

(** ** Filling one gap *)

Lemma b64_is_candidate_qualifies g s :
  Binary64.is_candidate g s = true <-> computed_qualifies g s.
Proof.
  unfold Binary64.is_candidate, computed_qualifies.
  by rewrite andb_true_iff, !Qltb_lt.
Qed.

Lemma b64_fill_gap_first_min scenes g :
  (exists s, s ∈ scenes /\ computed_qualifies g s) ->
  exists i s, scenes !! i = Some s /\ computed_qualifies g s
    /\ Binary64.fill_gap scenes g
       = Some (mkBreak (scene_timestamp s) scene medium)
    /\ forall j s', scenes !! j = Some s' -> computed_qualifies g s' ->
         Binary64.distance (Binary64.gap_center g) s
           <= Binary64.distance (Binary64.gap_center g) s'
         /\ ((j < i)%nat ->
             Binary64.distance (Binary64.gap_center g) s
               < Binary64.distance (Binary64.gap_center g) s').
Proof.
  intros (s0 & Hs0 & Hq0). unfold Binary64.fill_gap.
  destruct (Binary64.candidates scenes g) as [|c cs] eqn:Ec.
  { exfalso. assert (s0 ∈ Binary64.candidates scenes g) as Hin.
    { apply list_elem_of_In, filter_In. split; [by apply list_elem_of_In|].
      by apply b64_is_candidate_qualifies. }
    rewrite Ec in Hin. by apply elem_of_nil in Hin. }
  destruct (min_from_cons_first_min
              (Binary64.distance (Binary64.gap_center g)) c cs)
    as (k & Hk & Hmin).
  set (best := min_from (Binary64.distance (Binary64.gap_center g)) c cs) in *.
  rewrite <- Ec in Hk, Hmin. unfold Binary64.candidates in Hk, Hmin.
  destruct (filter_lookup_source _ _ _ _ Hk) as (i & Hi & Hc & Hord).
  exists i, best. split; [done|].
  split; [by apply b64_is_candidate_qualifies|].
  split; [done|].
  intros j s' Hj Hq'. apply b64_is_candidate_qualifies in Hq'.
  destruct (filter_lookup_target _ _ _ _ Hj Hq') as (j0 & Hj0).
  split; [by apply (Hmin j0 s')|].
  intros Hlt. destruct (Hord j s' Hlt Hj Hq') as (j1 & Hlt1 & Hj1).
  by apply (Hmin j1 s').
Qed.

Lemma b64_fill_gaps_app scenes gaps filled :
  Binary64.fill_gaps scenes gaps filled
  = filled ++ omap (Binary64.fill_gap scenes) gaps.
Proof.
  unfold Binary64.fill_gaps. revert filled.
  induction gaps as [|g gaps IH]; intros filled; simpl.
  - by rewrite app_nil_r.
  - rewrite IH. destruct (Binary64.fill_gap scenes g); [|done].
    by rewrite <- app_assoc.
Qed.

(** C6, as the program has it.  The loop appends one break per gap that
    has a qualifying scene cut and none for the others.  The break
    appended for such a gap is at the timestamp of a qualifying scene cut
    whose computed distance to the computed middle of the gap,
    [abs(s - (gstart + gend) / 2)] in float arithmetic, is least among the
    qualifying cuts and strictly less than that of every qualifying cut
    before it in [scenes]; qualifying is by the program's comparisons with
    the floats [gstart + 30] and [gend - 30]. *)
Theorem computed_distance_closest_first (duration : Q)
    (blacks : list BlackInterval) (silences : list SilenceInterval)
    (scenes : list SceneCut) (m : Z) (g : Gap) :
  (exists s, s ∈ scenes /\ computed_qualifies g s) ->
  (exists i s, scenes !! i = Some s /\ computed_qualifies g s
     /\ Binary64.fill_gap scenes g
        = Some (mkBreak (scene_timestamp s) scene medium)
     /\ forall j s', scenes !! j = Some s' -> computed_qualifies g s' ->
          Qabs (fsub (scene_timestamp s) (fdiv (fadd (fst g) (snd g)) 2))
            <= Qabs (fsub (scene_timestamp s') (fdiv (fadd (fst g) (snd g)) 2))
          /\ ((j < i)%nat ->
              Qabs (fsub (scene_timestamp s) (fdiv (fadd (fst g) (snd g)) 2))
                < Qabs (fsub (scene_timestamp s')
                          (fdiv (fadd (fst g) (snd g)) 2))))
  /\ (forall gaps filled,
        Binary64.fill_gaps scenes gaps filled
        = filled ++ omap (Binary64.fill_gap scenes) gaps)
  /\ Binary64.find_optimal_breaks duration blacks silences scenes m
     ≡ₚ high_breaks blacks
        ++ omap (Binary64.fill_gap scenes)
             (Binary64.gaps_of duration blacks m).
Proof.
  intros Hex. split; [|split].
  - exact (b64_fill_gap_first_min scenes g Hex).
  - intros gaps filled. apply b64_fill_gaps_app.
  - unfold Binary64.find_optimal_breaks, sort_by_timestamp.
    by rewrite sort_by_perm, b64_fill_gaps_app.
Qed.

Lemma computed_distance_closest_first_witness :
  (exists s, s ∈ [mkScene d30_2; mkScene d96_8]
     /\ computed_qualifies (0, 127) s)
  /\ exists i s, [mkScene d30_2; mkScene d96_8] !! i = Some s
       /\ computed_qualifies (0, 127) s
       /\ Binary64.fill_gap [mkScene d30_2; mkScene d96_8] (0, 127)
          = Some (mkBreak (scene_timestamp s) scene medium)
       /\ forall j s', [mkScene d30_2; mkScene d96_8] !! j = Some s' ->
            computed_qualifies (0, 127) s' ->
            Qabs (fsub (scene_timestamp s) (fdiv (fadd 0 127) 2))
              <= Qabs (fsub (scene_timestamp s') (fdiv (fadd 0 127) 2))
            /\ ((j < i)%nat ->
                Qabs (fsub (scene_timestamp s) (fdiv (fadd 0 127) 2))
                  < Qabs (fsub (scene_timestamp s') (fdiv (fadd 0 127) 2))).
Proof.
  assert (exists s, s ∈ [mkScene d30_2; mkScene d96_8]
            /\ computed_qualifies (0, 127) s) as Hex.
  { exists (mkScene d30_2). split; [repeat constructor|].
    split; by vm_compute. }
  split; [exact Hex|].
  exact (proj1 (computed_distance_closest_first 127 [] []
                  [mkScene d30_2; mkScene d96_8] 12 (0, 127) Hex)).
Defined.

(** C6, as the claim words it, fails: in a video of 127 s with scene cuts
    at 30.2 and 96.8, both qualifying, the cut at 96.8 is strictly nearer
    to the middle 63.5, but the two computed distances are the same float
    and the program takes the first, 30.2. *)
Lemma nearest_exactly_counterexample :
  ~ nearest_exactly [mkScene d30_2; mkScene d96_8] (0, 127).
Proof.
  intros H.
  assert (Qabs (d30_2 - (0 + 127) / 2) <= Qabs (d96_8 - (0 + 127) / 2)) as Hle.
  { apply (H (mkBreak d30_2 scene medium) (mkScene d96_8)).
    - by vm_compute.
    - repeat constructor.
    - split; by vm_compute. }
  vm_compute in Hle. by apply Hle.
Qed.

(** ** The metadata text *)

Lemma render_chapter_section (i : nat) (a b : Q) :
  render_chapter
    (mkChapter (Binary64.to_ms a) (Binary64.to_ms b) (chapter_title i))
  = chapter_section i (a, b).
Proof. reflexivity. Qed.

Lemma b64_loop_sections (break_points : list BreakPoint) (prev : Q) (i : nat)
    (duration : Q) :
  foldr (fun c acc => render_chapter c +:+ acc) ""
    (fst (Binary64.chapter_loop prev i break_points)
     ++ [mkChapter
           (Binary64.to_ms (snd (Binary64.chapter_loop prev i break_points)))
           (Binary64.to_ms duration)
           (chapter_title (i + length break_points))])
  = chapter_sections i (spans_from prev break_points duration).
Proof.
  revert prev i. induction break_points as [|bp rest IH]; intros prev i.
  - cbn [Binary64.chapter_loop fst snd app foldr spans_from chapter_sections length].
    by rewrite Nat.add_0_r, render_chapter_section.
  - cbn [Binary64.chapter_loop spans_from chapter_sections length].
    specialize (IH (timestamp bp) (S i)).
    destruct (Binary64.chapter_loop (timestamp bp) (S i) rest) as [cs lp].
    cbn [fst snd app foldr] in *.
    rewrite render_chapter_section. f_equal.
    rewrite <- IH. by rewrite Nat.add_succ_r.
Qed.

Lemma spans_from_length prev break_points duration :
  length (spans_from prev break_points duration) = S (length break_points).
Proof.
  revert prev. induction break_points as [|bp rest IH]; intros prev; [done|].
  simpl. by rewrite IH.
Qed.

Lemma spans_from_lookup prev break_points duration k bp :
  break_points !! k = Some bp ->
  spans_from prev break_points duration !! k
  = Some (match k with
          | O => prev
          | S j => from_option timestamp 0 (break_points !! j)
          end, timestamp bp).
Proof.
  revert prev k. induction break_points as [|b rest IH]; intros prev k Hk;
    [done|].
  destruct k as [|k]; simpl in *.
  - by injection Hk as <-.
  - rewrite (IH _ k Hk). by destruct k.
Qed.

Lemma spans_from_last prev break_points duration :
  spans_from prev break_points duration !! length break_points
  = Some (match length break_points with
          | O => prev
          | S j => from_option timestamp 0 (break_points !! j)
          end, duration).
Proof.
  revert prev. induction break_points as [|b rest IH]; intros prev; [done|].
  simpl. rewrite IH. by destruct rest.
Qed.

(** C8.  The text written to the metadata file is its two header lines
    followed by one section per chapter, and for [N] breaks there are
    [N+1] chapters: chapter [k+1] spans from the previous break (from 0
    for the first) to break [k+1], the closing chapter from the last break
    (from 0 when there is none) to the duration, and section [i] carries
    the title [Chapter i] and the two ends of its span as
    [int(t * 1000)].  Breaks at 30 and 90 with duration 120 give the
    sections 0 to 30000, 30000 to 90000 and 90000 to 120000, titled
    Chapter 1 to 3; a break at the float 30.002 is written as 30002; no
    break gives the single chapter from 0 to the duration.  This text is
    what [write_chapters_to_video] hands over. *)
Theorem metadata_text_chapters (break_points : list BreakPoint) (duration : Q) :
  Binary64.metadata_text break_points duration
  = lines [";FFMETADATA1"; "encoder=cmthingy"]
    +:+ chapter_sections 1 (chapter_spans break_points duration)
  /\ length (chapter_spans break_points duration) = S (length break_points)
  /\ (forall k bp, break_points !! k = Some bp ->
        chapter_spans break_points duration !! k
        = Some (chapter_start break_points k, timestamp bp))
  /\ chapter_spans break_points duration !! length break_points
     = Some (chapter_start break_points (length break_points), duration)
  /\ (forall i span,
        chapter_section i span
        = lines [""; "[CHAPTER]"; "TIMEBASE=1/1000";
                 "START=" +:+ pretty (Binary64.to_ms (fst span));
                 "END=" +:+ pretty (Binary64.to_ms (snd span));
                 "title=Chapter " +:+ pretty i])
  /\ (forall t1 c1 t2 c2,
        Binary64.metadata_text [mkBreak 30 t1 c1; mkBreak 90 t2 c2] 120
        = lines [";FFMETADATA1"; "encoder=cmthingy";
                 ""; "[CHAPTER]"; "TIMEBASE=1/1000";
                 "START=0"; "END=30000"; "title=Chapter 1";
                 ""; "[CHAPTER]"; "TIMEBASE=1/1000";
                 "START=30000"; "END=90000"; "title=Chapter 2";
                 ""; "[CHAPTER]"; "TIMEBASE=1/1000";
                 "START=90000"; "END=120000"; "title=Chapter 3"])
  /\ (forall t c,
        Binary64.metadata_text [mkBreak d30_002 t c] 60
        = lines [";FFMETADATA1"; "encoder=cmthingy";
                 ""; "[CHAPTER]"; "TIMEBASE=1/1000";
                 "START=0"; "END=30002"; "title=Chapter 1";
                 ""; "[CHAPTER]"; "TIMEBASE=1/1000";
                 "START=30002"; "END=60000"; "title=Chapter 2"])
  /\ Binary64.metadata_text [] duration
     = lines [";FFMETADATA1"; "encoder=cmthingy";
              ""; "[CHAPTER]"; "TIMEBASE=1/1000";
              "START=0";
              "END=" +:+ pretty (Binary64.to_ms duration);
              "title=Chapter 1"]
  /\ forall splitext video_file overwrite,
       rm_metadata (Binary64.write_chapters_to_video splitext video_file
                      break_points duration overwrite)
       = Binary64.metadata_text break_points duration.
Proof.
  assert (forall bps,
            Binary64.metadata_text bps duration
            = lines [";FFMETADATA1"; "encoder=cmthingy"]
              +:+ chapter_sections 1 (chapter_spans bps duration)) as Htext.
  { intros bps. unfold Binary64.metadata_text, Binary64.chapters, chapter_spans.
    pose proof (b64_loop_sections bps 0 1 duration) as H.
    destruct (Binary64.chapter_loop 0 1 bps) as [cs prev].
    cbn [fst snd] in H. rewrite (Nat.add_comm (length bps) 1).
    by rewrite H. }
  split; [apply Htext|].
  split; [apply spans_from_length|].
  split; [intros k bp Hk; by apply spans_from_lookup|].
  split; [apply spans_from_last|].
  split.
  { intros i span. reflexivity. }
  split; [intros; by vm_compute|].
  split; [intros; by vm_compute|].
  split.
  { rewrite Htext. unfold chapter_spans.
    cbn [spans_from chapter_sections]. rewrite string_app_empty.
    reflexivity. }
  intros splitext video_file overwrite.
  unfold Binary64.write_chapters_to_video. by destruct (splitext video_file).
Qed.

Lemma metadata_text_chapters_witness :
  [mkBreak 30 black high; mkBreak 90 scene medium] !! 1%nat
    = Some (mkBreak 90 scene medium)
  /\ chapter_spans [mkBreak 30 black high; mkBreak 90 scene medium] 120 !! 1%nat
     = Some (chapter_start [mkBreak 30 black high; mkBreak 90 scene medium] 1,
             timestamp (mkBreak 90 scene medium)).
Proof.
  split; [reflexivity|].
  exact (proj1 (proj2 (proj2 (metadata_text_chapters
                  [mkBreak 30 black high; mkBreak 90 scene medium] 120)))
           1%nat (mkBreak 90 scene medium) eq_refl).
Defined.

(** Where the rounding shows: the float 30.002 is a little below 30.002,
    its product with 1000 rounds to 30002 exactly, and that is what the
    file gets; cutting the exact product would give 30001. *)
Example rounded_product_in_milliseconds :
  Binary64.to_ms d30_002 = 30002%Z
  /\ fmul d30_002 1000 == 30002
  /\ d30_002 * 1000 < 30002
  /\ to_ms d30_002 = 30001%Z.
Proof. repeat split; by vm_compute. Qed.

(** ** The range of the timestamps *)



